(** * TopScroller: the game logic of [main.go]

    The development follows the source file from top to bottom: the
    constants, the data structs, the pacing helpers, [newGame],
    [loseLife] and [Update], the last one cut into the blocks its
    comments announce.  (The repository holds a second copy of the
    file that differs in the background only; its [Update] has the same
    blocks.)

    Go's [int] is taken as a 64-bit two's-complement integer and written
    as [Z] with the wrap-around spelled out; [float64] is the kernel's
    binary64 [float].  The collision library, resolv, is not part of the
    repository: what the game asks of it is the class [Resolv], and the
    general theorems hold for every instance.  Keys, the random
    generator and the loaded background image are inputs. *)

From Stdlib Require Import ZArith List Bool Lia PrimFloat Uint63 FloatAxioms.
From stdpp Require Import gmap.
Import ListNotations.

Set Warnings "-inexact-float".
Local Open Scope Z_scope.

(** ** Go's [int] *)

Module Int64.

Definition min_int : Z := - 2 ^ 63.
Definition max_int : Z := 2 ^ 63 - 1.

(** Two's-complement reduction of a mathematical integer to 64 bits. *)
Definition wrap (z : Z) : Z := (z + 2 ^ 63) mod 2 ^ 64 - 2 ^ 63.

Definition add (a b : Z) : Z := wrap (a + b).
Definition sub (a b : Z) : Z := wrap (a - b).
Definition mul (a b : Z) : Z := wrap (a * b).
(** Go's [/] truncates toward zero. *)
Definition div (a b : Z) : Z := wrap (Z.quot a b).

Definition in_range (z : Z) : Prop := min_int <= z <= max_int.

(** [float64(r)] for an [int] r: exact below 2^53, rounded to nearest
    above, as the conversion of the language does. *)
Definition to_float (z : Z) : float :=
  if z =? min_int then (-9223372036854775808)%float
  else if z <? 0 then (- PrimFloat.of_uint63 (Uint63.of_Z (- z)))%float
  else PrimFloat.of_uint63 (Uint63.of_Z z).

End Int64.

(** ** Constants *)

Definition screenW : float := 480%float.
Definition screenH : float := 640%float.
Definition playerSize : float := 35%float.
Definition playerSpeed : float := 3%float.
Definition bulletSize : float := 26%float.
Definition bulletSpeed : float := (-6)%float.
Definition enemySize : float := 38%float.
Definition baseEnemySpeed : float := 1.1%float.
Definition baseSpawnInterval : Z := 32.
Definition minSpawnInterval : Z := 12.
Definition startLives : Z := 2.
Definition iframeTicks : Z := 60.
Definition bgScrollSpeed : float := 1.2%float.

(** 6 rounds total: the kills needed per round. *)
Definition rounds : list Z := [6; 12; 18; 24; 30; 42].

(** [len(rounds)] *)
Definition len_rounds : Z := Z.of_nat (length rounds).

(** [rounds[i]]: an index outside the slice is a run-time panic, [None]. *)
Definition rounds_at (i : Z) : option Z :=
  if i <? 0 then None else nth_error rounds (Z.to_nat i).

(** ** Collision shapes: the part of resolv the game uses *)

Inductive Tag := tagNone | tagEnemy | tagBullet.

Definition tag_eqb (a b : Tag) : bool :=
  match a, b with
  | tagNone, tagNone | tagEnemy, tagEnemy | tagBullet, tagBullet => true
  | _, _ => false
  end.

(** A shape is a Go pointer: [sid] is its identity. *)
Abbreviation ShapeId := positive (only parsing).

Record Shape := {
  sid : ShapeId;
  stag : Tag;
  sx : float;
  sy : float;
  sw : float;
  sh : float
}.

(** The space holds its shapes in the order they were added; [nextId]
    is the identity the next allocated shape gets. *)
Record Space := {
  shapes : list Shape;
  nextId : ShapeId
}.

Definition NewSpace : Space := {| shapes := []; nextId := 1%positive |}.

(** [sh := resolv.NewRectangleFromTopLeft(x, y, w, h); sh.Tags().Set(t);
    space.Add(sh)], the three calls the game always makes together (the
    player's shape keeps the empty tag set). *)
Definition AddRectangle (sp : Space) (t : Tag) (x y w h : float)
  : ShapeId * Space :=
  let i := nextId sp in
  (i, {| shapes := shapes sp ++
                   [{| sid := i; stag := t; sx := x; sy := y;
                       sw := w; sh := h |}];
         nextId := Pos.succ i |}).

(** [space.Remove(sh)]; removing a shape that is not there does nothing. *)
Definition Remove (sp : Space) (i : ShapeId) : Space :=
  {| shapes := List.filter (fun s => negb (Pos.eqb (sid s) i)) (shapes sp);
     nextId := nextId sp |}.

Definition move_shape (i : ShapeId) (x y : float) (s : Shape) : Shape :=
  if Pos.eqb (sid s) i
  then {| sid := sid s; stag := stag s; sx := x; sy := y;
          sw := sw s; sh := sh s |}
  else s.

(** [sh.SetPosition(x, y)] *)
Definition SetPosition (sp : Space) (i : ShapeId) (x y : float) : Space :=
  {| shapes := List.map (move_shape i x y) (shapes sp);
     nextId := nextId sp |}.

Definition lookup_shape (sp : Space) (i : ShapeId) : option Shape :=
  List.find (fun s => Pos.eqb (sid s) i) (shapes sp).

(** What the library decides, kept abstract: whether a test started from
    the first shape reports the second (they share a cell and their
    outlines intersect). *)
Class Resolv := { intersects : Shape -> Shape -> bool }.

(** [sh.IntersectionTest] with [TestAgainst] the shapes of tag [t] in
    the cells [sh] touches, and a callback that returns false: the
    callback sees the first intersecting shape only.  The result is that
    shape, if there is one; a shape that is in no space touches no cell
    and meets nothing. *)
Definition IntersectionTest `{Resolv} (sp : Space) (i : ShapeId) (t : Tag)
  : option ShapeId :=
  match lookup_shape sp i with
  | None => None
  | Some me =>
      option_map sid
        (List.find (fun o => tag_eqb (stag o) t
                             && negb (Pos.eqb (sid o) i)
                             && intersects me o) (shapes sp))
  end.

(** ** The data structs *)

Record bullet := { b_x : float; b_y : float; b_vy : float; b_sh : ShapeId }.

Record enemy := { e_x : float; e_y : float; e_vy : float; e_sh : ShapeId }.

(** used only if there is no background image *)
Record star := { s_x : float; s_y : float; s_v : float }.

(** The two sounds [g.play] is called with. *)
Inductive Sound := sShoot | sHit.

(** [*rand.Rand]: the sequence of values [Float64] will return, and how
    many were drawn. *)
Record Rng := { src : nat -> float; drawn : nat }.

Definition Float64 (r : Rng) : float * Rng :=
  (src r (drawn r), {| src := src r; drawn := S (drawn r) |}).

(** whole game state.  [played] is the log of the calls of [g.play]; it
    stands for the audio players.  [bgImg] is the height of the
    background image when one was loaded.  The sprites are left out:
    only [Draw] reads them. *)
Record Game := {
  px : float;
  py : float;
  playerSh : ShapeId;
  bullets : list bullet;
  enemies : list enemy;
  space : Space;
  stars : list star;
  roundIdx : Z;
  roundSpawned : Z;
  roundKills : Z;
  totalKills : Z;
  cooldown : Z;
  spawnTimer : Z;
  lives : Z;
  inv : Z;
  win : bool;
  over : bool;
  played : list Sound;
  bgImg : option Z;
  bgOff : float;
  rng : Rng
}.

(** Field updates: [set_f v g] is [g] after [g.f = v]. *)

Definition set_px (v : float) (g : Game) : Game :=
  {| px := v; py := py g; playerSh := playerSh g; bullets := bullets g;
     enemies := enemies g; space := space g; stars := stars g;
     roundIdx := roundIdx g; roundSpawned := roundSpawned g;
     roundKills := roundKills g; totalKills := totalKills g;
     cooldown := cooldown g; spawnTimer := spawnTimer g; lives := lives g;
     inv := inv g; win := win g; over := over g; played := played g;
     bgImg := bgImg g; bgOff := bgOff g; rng := rng g |}.

Definition set_py (v : float) (g : Game) : Game :=
  {| px := px g; py := v; playerSh := playerSh g; bullets := bullets g;
     enemies := enemies g; space := space g; stars := stars g;
     roundIdx := roundIdx g; roundSpawned := roundSpawned g;
     roundKills := roundKills g; totalKills := totalKills g;
     cooldown := cooldown g; spawnTimer := spawnTimer g; lives := lives g;
     inv := inv g; win := win g; over := over g; played := played g;
     bgImg := bgImg g; bgOff := bgOff g; rng := rng g |}.

Definition set_bullets (v : list bullet) (g : Game) : Game :=
  {| px := px g; py := py g; playerSh := playerSh g; bullets := v;
     enemies := enemies g; space := space g; stars := stars g;
     roundIdx := roundIdx g; roundSpawned := roundSpawned g;
     roundKills := roundKills g; totalKills := totalKills g;
     cooldown := cooldown g; spawnTimer := spawnTimer g; lives := lives g;
     inv := inv g; win := win g; over := over g; played := played g;
     bgImg := bgImg g; bgOff := bgOff g; rng := rng g |}.

Definition set_enemies (v : list enemy) (g : Game) : Game :=
  {| px := px g; py := py g; playerSh := playerSh g; bullets := bullets g;
     enemies := v; space := space g; stars := stars g;
     roundIdx := roundIdx g; roundSpawned := roundSpawned g;
     roundKills := roundKills g; totalKills := totalKills g;
     cooldown := cooldown g; spawnTimer := spawnTimer g; lives := lives g;
     inv := inv g; win := win g; over := over g; played := played g;
     bgImg := bgImg g; bgOff := bgOff g; rng := rng g |}.

Definition set_space (v : Space) (g : Game) : Game :=
  {| px := px g; py := py g; playerSh := playerSh g; bullets := bullets g;
     enemies := enemies g; space := v; stars := stars g;
     roundIdx := roundIdx g; roundSpawned := roundSpawned g;
     roundKills := roundKills g; totalKills := totalKills g;
     cooldown := cooldown g; spawnTimer := spawnTimer g; lives := lives g;
     inv := inv g; win := win g; over := over g; played := played g;
     bgImg := bgImg g; bgOff := bgOff g; rng := rng g |}.

Definition set_stars (v : list star) (g : Game) : Game :=
  {| px := px g; py := py g; playerSh := playerSh g; bullets := bullets g;
     enemies := enemies g; space := space g; stars := v;
     roundIdx := roundIdx g; roundSpawned := roundSpawned g;
     roundKills := roundKills g; totalKills := totalKills g;
     cooldown := cooldown g; spawnTimer := spawnTimer g; lives := lives g;
     inv := inv g; win := win g; over := over g; played := played g;
     bgImg := bgImg g; bgOff := bgOff g; rng := rng g |}.

Definition set_roundIdx (v : Z) (g : Game) : Game :=
  {| px := px g; py := py g; playerSh := playerSh g; bullets := bullets g;
     enemies := enemies g; space := space g; stars := stars g; roundIdx := v;
     roundSpawned := roundSpawned g; roundKills := roundKills g;
     totalKills := totalKills g; cooldown := cooldown g;
     spawnTimer := spawnTimer g; lives := lives g; inv := inv g;
     win := win g; over := over g; played := played g; bgImg := bgImg g;
     bgOff := bgOff g; rng := rng g |}.

Definition set_roundSpawned (v : Z) (g : Game) : Game :=
  {| px := px g; py := py g; playerSh := playerSh g; bullets := bullets g;
     enemies := enemies g; space := space g; stars := stars g;
     roundIdx := roundIdx g; roundSpawned := v; roundKills := roundKills g;
     totalKills := totalKills g; cooldown := cooldown g;
     spawnTimer := spawnTimer g; lives := lives g; inv := inv g;
     win := win g; over := over g; played := played g; bgImg := bgImg g;
     bgOff := bgOff g; rng := rng g |}.

Definition set_roundKills (v : Z) (g : Game) : Game :=
  {| px := px g; py := py g; playerSh := playerSh g; bullets := bullets g;
     enemies := enemies g; space := space g; stars := stars g;
     roundIdx := roundIdx g; roundSpawned := roundSpawned g; roundKills := v;
     totalKills := totalKills g; cooldown := cooldown g;
     spawnTimer := spawnTimer g; lives := lives g; inv := inv g;
     win := win g; over := over g; played := played g; bgImg := bgImg g;
     bgOff := bgOff g; rng := rng g |}.

Definition set_totalKills (v : Z) (g : Game) : Game :=
  {| px := px g; py := py g; playerSh := playerSh g; bullets := bullets g;
     enemies := enemies g; space := space g; stars := stars g;
     roundIdx := roundIdx g; roundSpawned := roundSpawned g;
     roundKills := roundKills g; totalKills := v; cooldown := cooldown g;
     spawnTimer := spawnTimer g; lives := lives g; inv := inv g;
     win := win g; over := over g; played := played g; bgImg := bgImg g;
     bgOff := bgOff g; rng := rng g |}.

Definition set_cooldown (v : Z) (g : Game) : Game :=
  {| px := px g; py := py g; playerSh := playerSh g; bullets := bullets g;
     enemies := enemies g; space := space g; stars := stars g;
     roundIdx := roundIdx g; roundSpawned := roundSpawned g;
     roundKills := roundKills g; totalKills := totalKills g; cooldown := v;
     spawnTimer := spawnTimer g; lives := lives g; inv := inv g;
     win := win g; over := over g; played := played g; bgImg := bgImg g;
     bgOff := bgOff g; rng := rng g |}.

Definition set_spawnTimer (v : Z) (g : Game) : Game :=
  {| px := px g; py := py g; playerSh := playerSh g; bullets := bullets g;
     enemies := enemies g; space := space g; stars := stars g;
     roundIdx := roundIdx g; roundSpawned := roundSpawned g;
     roundKills := roundKills g; totalKills := totalKills g;
     cooldown := cooldown g; spawnTimer := v; lives := lives g; inv := inv g;
     win := win g; over := over g; played := played g; bgImg := bgImg g;
     bgOff := bgOff g; rng := rng g |}.

Definition set_lives (v : Z) (g : Game) : Game :=
  {| px := px g; py := py g; playerSh := playerSh g; bullets := bullets g;
     enemies := enemies g; space := space g; stars := stars g;
     roundIdx := roundIdx g; roundSpawned := roundSpawned g;
     roundKills := roundKills g; totalKills := totalKills g;
     cooldown := cooldown g; spawnTimer := spawnTimer g; lives := v;
     inv := inv g; win := win g; over := over g; played := played g;
     bgImg := bgImg g; bgOff := bgOff g; rng := rng g |}.

Definition set_inv (v : Z) (g : Game) : Game :=
  {| px := px g; py := py g; playerSh := playerSh g; bullets := bullets g;
     enemies := enemies g; space := space g; stars := stars g;
     roundIdx := roundIdx g; roundSpawned := roundSpawned g;
     roundKills := roundKills g; totalKills := totalKills g;
     cooldown := cooldown g; spawnTimer := spawnTimer g; lives := lives g;
     inv := v; win := win g; over := over g; played := played g;
     bgImg := bgImg g; bgOff := bgOff g; rng := rng g |}.

Definition set_win (v : bool) (g : Game) : Game :=
  {| px := px g; py := py g; playerSh := playerSh g; bullets := bullets g;
     enemies := enemies g; space := space g; stars := stars g;
     roundIdx := roundIdx g; roundSpawned := roundSpawned g;
     roundKills := roundKills g; totalKills := totalKills g;
     cooldown := cooldown g; spawnTimer := spawnTimer g; lives := lives g;
     inv := inv g; win := v; over := over g; played := played g;
     bgImg := bgImg g; bgOff := bgOff g; rng := rng g |}.

Definition set_over (v : bool) (g : Game) : Game :=
  {| px := px g; py := py g; playerSh := playerSh g; bullets := bullets g;
     enemies := enemies g; space := space g; stars := stars g;
     roundIdx := roundIdx g; roundSpawned := roundSpawned g;
     roundKills := roundKills g; totalKills := totalKills g;
     cooldown := cooldown g; spawnTimer := spawnTimer g; lives := lives g;
     inv := inv g; win := win g; over := v; played := played g;
     bgImg := bgImg g; bgOff := bgOff g; rng := rng g |}.

Definition set_played (v : list Sound) (g : Game) : Game :=
  {| px := px g; py := py g; playerSh := playerSh g; bullets := bullets g;
     enemies := enemies g; space := space g; stars := stars g;
     roundIdx := roundIdx g; roundSpawned := roundSpawned g;
     roundKills := roundKills g; totalKills := totalKills g;
     cooldown := cooldown g; spawnTimer := spawnTimer g; lives := lives g;
     inv := inv g; win := win g; over := over g; played := v;
     bgImg := bgImg g; bgOff := bgOff g; rng := rng g |}.

Definition set_bgOff (v : float) (g : Game) : Game :=
  {| px := px g; py := py g; playerSh := playerSh g; bullets := bullets g;
     enemies := enemies g; space := space g; stars := stars g;
     roundIdx := roundIdx g; roundSpawned := roundSpawned g;
     roundKills := roundKills g; totalKills := totalKills g;
     cooldown := cooldown g; spawnTimer := spawnTimer g; lives := lives g;
     inv := inv g; win := win g; over := over g; played := played g;
     bgImg := bgImg g; bgOff := v; rng := rng g |}.

Definition set_rng (v : Rng) (g : Game) : Game :=
  {| px := px g; py := py g; playerSh := playerSh g; bullets := bullets g;
     enemies := enemies g; space := space g; stars := stars g;
     roundIdx := roundIdx g; roundSpawned := roundSpawned g;
     roundKills := roundKills g; totalKills := totalKills g;
     cooldown := cooldown g; spawnTimer := spawnTimer g; lives := lives g;
     inv := inv g; win := win g; over := over g; played := played g;
     bgImg := bgImg g; bgOff := bgOff g; rng := v |}.

(** ** Pacing helpers *)

Definition enemySpeed (r : Z) : float :=
  (baseEnemySpeed + 0.3 * Int64.to_float r)%float.

Definition spawnInterval (r : Z) : Z :=
  let n := Int64.sub baseSpawnInterval (Int64.mul 2 r) in
  if n <? minSpawnInterval then minSpawnInterval else n.

Definition fireDelay (r : Z) : Z :=
  let d := Int64.sub 10 (Int64.div r 2) in
  if d <? 8 then 8 else d.

(** ** New game setup *)

(** The fallback star field: [n] stars, three draws each, in the order
    of the struct literal. *)
Fixpoint newStars (n : nat) (r : Rng) : list star * Rng :=
  match n with
  | O => ([], r)
  | S n' =>
      let '(fx, r1) := Float64 r in
      let '(fy, r2) := Float64 r1 in
      let '(fv, r3) := Float64 r2 in
      let st := {| s_x := (fx * 478)%float;  (* screenW - 2 *)
                   s_y := (fy * screenH - screenH)%float;
                   s_v := (0.5 + fv)%float |} in
      let '(rest, r4) := newStars n' r3 in
      (st :: rest, r4)
  end.

(** [newGame]: the seed of the generator ([source], the values it will
    return) and what [initImages] found ([img], the height of the
    background image) come from outside. *)
Definition newGame (source : nat -> float) (img : option Z) : Game :=
  let x := 222.5%float in  (* screenW/2 - playerSize/2 *)
  let y := 570%float in    (* screenH - 2*playerSize *)
  let '(psh, sp) := AddRectangle NewSpace tagNone x y playerSize playerSize in
  let '(sts, r) := newStars 60 {| src := source; drawn := 0 |} in
  {| px := x; py := y; playerSh := psh;
     bullets := []; enemies := []; space := sp; stars := sts;
     roundIdx := 0; roundSpawned := 0; roundKills := 0; totalKills := 0;
     cooldown := 0; spawnTimer := spawnInterval 0;
     lives := startLives; inv := 0; win := false; over := false;
     played := []; bgImg := img; bgOff := 0%float; rng := r |}.

(** ** Audio *)

Definition play (p : Sound) (g : Game) : Game :=
  set_played (played g ++ [p]) g.

(** ** Damage *)

Definition loseLife (g : Game) : Game :=
  if (0 <? inv g) || win g || over g then g
  else
    let g := set_lives (Int64.sub (lives g) 1) g in
    let g := set_inv iframeTicks g in
    let g := play sHit g in
    if lives g <? 0 then set_over true g else g.

(** [n] calls of [loseLife], each one finding the invulnerability window
    elapsed ([inv] back at 0), as the ticks between two hits leave it. *)
Fixpoint hits (n : nat) (g : Game) : Game :=
  match n with
  | O => g
  | S n' => loseLife (set_inv 0 (hits n' g))
  end.

(** ** Update *)

(** What [ebiten.IsKeyPressed] answers during one tick; each field is
    the disjunction the source tests (arrow key or letter). *)
Record Input := {
  keyLeft : bool;
  keyRight : bool;
  keyUp : bool;
  keyDown : bool;
  keyFire : bool
}.

Definition stepStar (acc : list star * Rng) (s : star) : list star * Rng :=
  let '(out, r) := acc in
  let y := (s_y s + s_v s)%float in
  if (screenH <? y)%float then
    let '(f, r') := Float64 r in
    (* screenW - 2 *)
    (out ++ [{| s_x := (f * 478)%float; s_y := (-2)%float; s_v := s_v s |}],
     r')
  else (out ++ [{| s_x := s_x s; s_y := y; s_v := s_v s |}], r).

(** Scroll background, or update stars. *)
Definition scrollBackground (g : Game) : Game :=
  match bgImg g with
  | Some h =>
      let off := (bgOff g + bgScrollSpeed)%float in
      let off := if (0 <? h) && (Int64.to_float h <=? off)%float
                 then (off - Int64.to_float h)%float else off in
      set_bgOff off g
  | None =>
      let '(sts, r) := fold_left stepStar (stars g) ([], rng g) in
      set_rng r (set_stars sts g)
  end.

(** Basic movement + clamp to screen. *)
Definition movePlayer (inp : Input) (g : Game) : Game :=
  let x := px g in
  let y := py g in
  let x := if keyLeft inp then (x - playerSpeed)%float else x in
  let x := if keyRight inp then (x + playerSpeed)%float else x in
  let y := if keyUp inp then (y - playerSpeed)%float else y in
  let y := if keyDown inp then (y + playerSpeed)%float else y in
  let x := if (x <? 0)%float then 0%float else x in
  let x := if (445 <? x)%float then 445%float else x in (* screenW-playerSize *)
  let y := if (y <? 0)%float then 0%float else y in
  let y := if (605 <? y)%float then 605%float else y in (* screenH-playerSize *)
  set_space (SetPosition (space g) (playerSh g) x y) (set_py y (set_px x g)).

(** tick down invulnerability frames *)
Definition tickInv (g : Game) : Game :=
  if 0 <? inv g then set_inv (Int64.sub (inv g) 1) g else g.

(** Shooting, limited by cooldown. *)
Definition shoot (inp : Input) (g : Game) : Game :=
  let g := if 0 <? cooldown g
           then set_cooldown (Int64.sub (cooldown g) 1) g else g in
  if keyFire inp && (cooldown g =? 0) then
    let x := (px g + 17.5 - 13)%float in  (* playerSize/2, bulletSize/2 *)
    let y := (py g - bulletSize)%float in
    let '(i, sp) := AddRectangle (space g) tagBullet x y
                      bulletSize bulletSize in
    let g := set_space sp g in
    let g := set_bullets
               (bullets g ++
                [{| b_x := x; b_y := y; b_vy := bulletSpeed; b_sh := i |}])
               g in
    let g := set_cooldown (fireDelay (roundIdx g)) g in
    play sShoot g
  else g.

(** The body of [if g.roundSpawned < rounds[g.roundIdx]]. *)
Definition spawnEnemy (g : Game) : Game :=
  let '(f, r) := Float64 (rng g) in
  let g := set_rng r g in
  let ex := (f * 442)%float in  (* screenW - enemySize *)
  let '(i, sp) := AddRectangle (space g) tagEnemy ex (- enemySize)%float
                    enemySize enemySize in
  let g := set_space sp g in
  let g := set_enemies
             (enemies g ++
              [{| e_x := ex; e_y := (- enemySize)%float;
                  e_vy := enemySpeed (roundIdx g); e_sh := i |}])
             g in
  set_roundSpawned (Int64.add (roundSpawned g) 1) g.

(** Enemy spawns for current round (up to its quota). *)
Definition spawnEnemies (g : Game) : option Game :=
  let g := set_spawnTimer (Int64.sub (spawnTimer g) 1) g in
  if (spawnTimer g <=? 0) && (roundIdx g <? len_rounds) then
    match rounds_at (roundIdx g) with
    | None => None
    | Some quota =>
        let g := if roundSpawned g <? quota then spawnEnemy g else g in
        Some (set_spawnTimer (spawnInterval (roundIdx g)) g)
    end
  else Some g.

(** The state of the bullet loop: the game, the [dead] map and the
    bullets written back so far ([g.bullets[:bw]]). *)
Definition BulletLoop : Type := Game * gset positive * list bullet.

(** One iteration of the bullet loop. *)
Definition bulletStep `{Resolv} (acc : BulletLoop) (b0 : bullet)
  : BulletLoop :=
  let '(g, dead, kept) := acc in
  let b := {| b_x := b_x b0; b_y := (b_y b0 + b_vy b0)%float;
              b_vy := b_vy b0; b_sh := b_sh b0 |} in
  let g := set_space (SetPosition (space g) (b_sh b) (b_x b) (b_y b)) g in
  match IntersectionTest (space g) (b_sh b) tagEnemy with
  | Some other =>
      let g := set_space (Remove (space g) (b_sh b)) g in
      let g := set_roundKills (Int64.add (roundKills g) 1) g in
      let g := set_totalKills (Int64.add (totalKills g) 1) g in
      (play sHit g, {[ other ]} ∪ dead, kept)
  | None =>
      if (0 <? b_y b + bulletSize)%float then (g, dead, kept ++ [b])
      else (set_space (Remove (space g) (b_sh b)) g, dead, kept)
  end.

(** Move bullets + bullet→enemy hits. *)
Definition moveBullets `{Resolv} (g : Game) : Game * gset positive :=
  let '(g', dead, kept) := fold_left bulletStep (bullets g) (g, ∅, []) in
  (set_bullets kept g', dead).

(** enemy → player (only if not currently invincible) *)
Definition touchPlayer `{Resolv} (g : Game) : Game :=
  if inv g =? 0 then
    match IntersectionTest (space g) (playerSh g) tagEnemy with
    | Some _ => loseLife g
    | None => g
    end
  else g.

(** remove dead or escaped enemies; the enemy is returned when kept *)
Definition reapEnemy (dead : gset positive) (g : Game) (e : enemy)
  : Game * option enemy :=
  if bool_decide (e_sh e ∈ dead) then
    (set_space (Remove (space g) (e_sh e)) g, None)
  else if (screenH <? e_y e)%float then
    (loseLife (set_space (Remove (space g) (e_sh e)) g), None)
  else (g, Some e).

(** One iteration of the enemy loop. *)
Definition enemyStep `{Resolv} (dead : gset positive)
    (acc : Game * list enemy) (e0 : enemy) : Game * list enemy :=
  let '(g, kept) := acc in
  let e := {| e_x := e_x e0; e_y := (e_y e0 + e_vy e0)%float;
              e_vy := e_vy e0; e_sh := e_sh e0 |} in
  let g := set_space (SetPosition (space g) (e_sh e) (e_x e) (e_y e)) g in
  let g := touchPlayer g in
  match reapEnemy dead g e with
  | (g, Some e) => (g, kept ++ [e])
  | (g, None) => (g, kept)
  end.

(** Move enemies; hitting player or passing the bottom costs a life. *)
Definition moveEnemies `{Resolv} (dead : gset positive) (g : Game) : Game :=
  let '(g', kept) := fold_left (enemyStep dead) (enemies g) (g, []) in
  set_enemies kept g'.

(** Round complete? Move to next; after last, mark win. *)
Definition advanceRound (g : Game) : option Game :=
  if roundIdx g <? len_rounds then
    match rounds_at (roundIdx g) with
    | None => None
    | Some quota =>
        if quota <=? roundKills g then
          let g := set_roundIdx (Int64.add (roundIdx g) 1) g in
          let g := set_roundSpawned 0 (set_roundKills 0 g) in
          let g := set_spawnTimer (spawnInterval (roundIdx g)) g in
          Some (if len_rounds <=? roundIdx g then set_win true g else g)
        else Some g
    end
  else Some g.

(** Everything [Update] does between the freeze test and the round
    test. *)
Definition playTick `{Resolv} (inp : Input) (g : Game) : option Game :=
  let g := scrollBackground g in
  let g := movePlayer inp g in
  let g := tickInv g in
  let g := shoot inp g in
  match spawnEnemies g with
  | None => None
  | Some g =>
      let '(g, dead) := moveBullets g in
      Some (moveEnemies dead g)
  end.

(** main game loop (logic).  [None] is a run-time panic; the error the
    function returns is always nil. *)
Definition Update `{Resolv} (g : Game) (inp : Input) : option Game :=
  if win g || over g then Some g
  else
    match playTick inp g with
    | None => None
    | Some g => advanceRound g
    end.

(** A run: one [Update] per input of the list. *)
Fixpoint run `{Resolv} (g : Game) (inps : list Input) : option Game :=
  match inps with
  | [] => Some g
  | i :: rest =>
      match Update g i with
      | None => None
      | Some g' => run g' rest
      end
  end.

(** The states a game passes through, whatever the seed, the assets and
    the keys. *)
Inductive Reachable `{Resolv} : Game -> Prop :=
| reach_new : forall source img, Reachable (newGame source img)
| reach_tick : forall g inp g',
    Reachable g -> Update g inp = Some g' -> Reachable g'.

(** Three views of the state: what the round test reads, what the
    damage rule reads and the kill counters. *)
Definition roundView (g : Game) :=
  (roundIdx g, roundSpawned g, win g, spawnTimer g).

Definition lifeView (g : Game) := (lives g, inv g, over g).

Definition killView (g : Game) := (roundKills g, totalKills g).

(** [g'] differs from [g] at most in positions, entities, the fire
    cooldown, sounds and the invulnerability window. *)
Definition same_logic (g g' : Game) : Prop :=
  roundView g' = roundView g /\ killView g' = killView g
  /\ lives g' = lives g /\ over g' = over g.

(** The round bookkeeping is sound: the index is a valid one as long as
    the game is not won, and no more enemies were spawned in the round
    than its quota. *)
Definition quota_ok (g : Game) : Prop :=
  win g = false ->
  exists q, rounds_at (roundIdx g) = Some q /\ 0 <= roundSpawned g <= q.

(** Lives stay between -1 and [startLives], and a game that is not
    over has at least 0. *)
Definition lives_ok (g : Game) : Prop :=
  -1 <= lives g <= startLives /\ (over g = false -> 0 <= lives g).

(** During the enemy loop of a tick entered with [l] lives: either no
    life was lost yet, or exactly one was and the window is open. *)
Definition one_hit (l : Z) (g : Game) : Prop :=
  lives g = l \/ (lives g = Int64.sub l 1 /\ inv g = iframeTicks).

(** ** The overlap rule of the spatial index *)

(** Modelled from the spec: the code of resolv is not in the repository.
    Section 4.1 gives the test the index answers with: two rectangles
    overlap iff [ax < bx+bw && ax+aw > bx && ay < by+bh && ay+ah > by],
    all comparisons strict, a rectangle being given by its top-left
    corner and its size. *)
Definition overlaps (a b : Shape) : bool :=
  ((sx a <? sx b + sw b) && (sx b <? sx a + sw a)
   && (sy a <? sy b + sh b) && (sy b <? sy a + sh a))%float.

Definition rect_resolv : Resolv := {| intersects := overlaps |}.

(** ** Scripted games

    Inputs for whole games, used to exhibit reachable states. *)

Definition keys (up fire : bool) : Input :=
  {| keyLeft := false; keyRight := false; keyUp := up; keyDown := false;
     keyFire := fire |}.

Definition noKeys : Input := keys false false.
Definition pressFire : Input := keys false true.
Definition pressUp : Input := keys true false.
Definition pressUpFire : Input := keys true true.

(** [(n, i)] stands for [n] ticks in a row with the keys [i]. *)
Definition script (s : list (nat * Input)) : list Input :=
  flat_map (fun '(n, i) => repeat i n) s.

(** Single shots: [(n, gap)] stands for [n] times "[gap] ticks without
    a key, then one tick with fire held". *)
Definition shots (s : list (nat * nat)) : list Input :=
  flat_map (fun '(n, gap) =>
              List.concat (repeat (repeat noKeys gap ++ [pressFire]) n)) s.

(** The state after a run ([g] itself if the run panics). *)
Definition run_or `{Resolv} (g : Game) (inps : list Input) : Game :=
  match run g inps with
  | Some g' => g'
  | None => g
  end.

(** The state a tick has reached when the round test starts ([g] itself
    if the tick panics before). *)
Definition tick_or `{Resolv} (inp : Input) (g : Game) : Game :=
  match playTick inp g with
  | Some g' => g'
  | None => g
  end.

(** A game with a background image 100 pixels high whose generator
    always returns 0.5: every enemy appears at x = 221, above the
    player's starting column. *)
Definition centreGame : Game := newGame (fun _ => 0.5%float) (Some 100).

(** The same with a generator that always returns 0: every enemy
    appears at x = 0, away from the player's column. *)
Definition leftGame : Game := newGame (fun _ => 0%float) (Some 100).

(** The player never moves and shoots each enemy at point-blank range
    (132 shots); the 36th, 39th and 42nd enemy of the last round are
    shot on the tick they reach the player. *)
Definition lastStand : list Input :=
  shots [(1, 527); (5, 31); (1, 419); (11, 29); (1, 348); (17, 27);
         (1, 298); (23, 25); (1, 260); (29, 23); (1, 231); (34, 21);
         (1, 30); (1, 12); (1, 21); (1, 30); (1, 12); (1, 21);
         (1, 30)]%nat.

(** The player climbs to y = 57 while shooting, clears rounds 0 and 1
    from there, then shoots once, climbs 9 steps and shoots again on
    the tick the first enemy of round 2 appears.  [climbAndShoot] stops
    one tick before that second shot. *)
Definition climbAndShoot : list Input :=
  script [(171, pressUpFire); (385, pressFire); (18, noKeys);
          (1, pressFire); (8, pressUp)]%nat.

(** The first 687 ticks of [lastStand]: five enemies of round 0 are
    shot and the sixth is within range. *)
Definition firstRound : list Input :=
  shots [(1, 527); (4, 31)]%nat ++ repeat noKeys 31.

(** One shot on the first tick, then 93 ticks without a key: the bullet
    is 6 pixels short of the line y = -bulletSize. *)
Definition topEdge : list Input := pressFire :: repeat noKeys 93.

(** The bullet in flight at the end of [topEdge]. *)
Definition topBullet : bullet :=
  {| b_x := 227; b_y := -20; b_vy := -6; b_sh := 2 |}.

(** No key for 549 ticks: the first enemy is about to reach the
    player. *)
Definition firstTouch : list Input := repeat noKeys 549.

(** ** Draw: the text it writes over the sprites *)

(** The end of [Draw]: the panel of a finished game, or the HUD line
    with the six values [fmt.Sprintf] is given. *)
Inductive Overlay :=
| youWin
| gameOver
| hud (round kills quota remaining delay : Z) (speed : float).

(** [None] is the panic of [rounds[g.roundIdx]] out of range.  The
    background and the sprites drawn before are calls of the graphics
    library only. *)
Definition DrawOverlay (g : Game) : option Overlay :=
  if win g then Some youWin
  else if over g then Some gameOver
  else
    match rounds_at (roundIdx g) with
    | None => None
    | Some quota =>
        Some (hud (Int64.add (roundIdx g) 1) (roundKills g) quota (lives g)
                (fireDelay (roundIdx g)) (enemySpeed (roundIdx g)))
    end.

(** ** Notions used to state what the game keeps *)

(** The first four blocks of a tick. *)
Definition prelude (inp : Input) (g : Game) : Game :=
  shoot inp (tickInv (movePlayer inp (scrollBackground g))).

(** The shape an entity should have in the space. *)
Definition playerShape (g : Game) : Shape :=
  {| sid := playerSh g; stag := tagNone; sx := px g; sy := py g;
     sw := playerSize; sh := playerSize |}.

Definition bulletShape (b : bullet) : Shape :=
  {| sid := b_sh b; stag := tagBullet; sx := b_x b; sy := b_y b;
     sw := bulletSize; sh := bulletSize |}.

Definition enemyShape (e : enemy) : Shape :=
  {| sid := e_sh e; stag := tagEnemy; sx := e_x e; sy := e_y e;
     sw := enemySize; sh := enemySize |}.

Definition sceneShapes (pl : Shape) (bs : list bullet) (es : list enemy)
  : list Shape :=
  pl :: map bulletShape bs ++ map enemyShape es.

Definition entityShapes (g : Game) : list Shape :=
  sceneShapes (playerShape g) (bullets g) (enemies g).

(** The shapes the game holds a pointer to. *)
Definition handles (g : Game) : list positive :=
  playerSh g :: map b_sh (bullets g) ++ map e_sh (enemies g).

(** The space [sp] holds the shapes [l] and nothing else, in some
    order; no two of them are the same shape; the identities in use are
    below the next one to be given out. *)
Definition scene_ok (sp : Space) (l : list Shape) : Prop :=
  Permutation (shapes sp) l
  /\ List.NoDup (map sid l)
  /\ Forall (fun s => (sid s < nextId sp)%positive) (shapes sp).

(** The space holds the shape of the player and one shape per live
    bullet and enemy, each where its entity is. *)
Definition space_ok (g : Game) : Prop :=
  scene_ok (space g) (entityShapes g).

(** Bullets fly up at [bulletSpeed]; an enemy falls at the speed of the
    round it was spawned in. *)
Definition entities_ok (g : Game) : Prop :=
  Forall (fun b => b_vy b = bulletSpeed) (bullets g)
  /\ Forall (fun e => exists r, 0 <= r < len_rounds /\ e_vy e = enemySpeed r)
       (enemies g).

(** What [Update] makes of one coordinate of the player: the two keys,
    then the clamp to [0, hi]. *)
Definition axis (dec inc : bool) (hi x : float) : float :=
  let x := if dec then (x - playerSpeed)%float else x in
  let x := if inc then (x + playerSpeed)%float else x in
  let x := if (x <? 0)%float then 0%float else x in
  if (hi <? x)%float then hi else x.

(** The multiples of [1/d] from 0 to [n/d]. *)
Definition grid (d : float) (n : nat) : list float :=
  map (fun k => (PrimFloat.of_uint63 (Uint63.of_Z (Z.of_nat k)) / d)%float)
    (seq 0 (S n)).

Definition among (l : list float) (x : float) : bool :=
  existsb (PrimFloat.Leibniz.eqb x) l.

(** The positions of the player: x is a multiple of 0.5 from 0 to 445
    and y a whole number from 0 to 605. *)
Definition columns : list float := grid 2 890.
Definition rows : list float := grid 1 605.

Definition on_screen (g : Game) : Prop :=
  among columns (px g) = true /\ among rows (py g) = true.

(** The three countdowns stay in their ranges. *)
Definition timers_ok (g : Game) : Prop :=
  0 <= cooldown g <= 10 /\ 0 <= inv g <= iframeTicks
  /\ 1 <= spawnTimer g <= baseSpawnInterval.

(** The round index counts the rounds cleared, and the end flags say
    what they are named after. *)
Definition flags_ok (g : Game) : Prop :=
  0 <= roundIdx g <= len_rounds
  /\ (win g = true <-> roundIdx g = len_rounds)
  /\ (over g = true <-> lives g = -1).

(** How many times the shot sound was played. *)
Definition shotsFired (g : Game) : nat :=
  length (List.filter (fun s => match s with sShoot => true | sHit => false end)
            (played g)).

(** What the blocks after the shooting leave alone. *)
Definition lateView (g : Game) :=
  (px g, py g, playerSh g, cooldown g, stars g, bgImg g, bgOff g).

(** The cooldown as the fire test of a tick reads it, and what the test
    answers. *)
Definition cooled (g : Game) : Z :=
  if 0 <? cooldown g then Int64.sub (cooldown g) 1 else cooldown g.

Definition fires (inp : Input) (g : Game) : bool :=
  keyFire inp && (cooled g =? 0).

(** The scene: the player, the bullets, the enemies and their shapes. *)
Definition sceneView (g : Game) :=
  (px g, py g, playerSh g, bullets g, enemies g, space g).

(** A game without a background image: the star field is drawn. *)
Definition starGame : Game := newGame (fun _ => 0.5%float) None.

(** * Properties *)

(** ** 64-bit arithmetic *)

Lemma wrap_small (z : Z) : Int64.in_range z -> Int64.wrap z = z.
Proof.
  unfold Int64.in_range, Int64.min_int, Int64.max_int, Int64.wrap.
  intros Hz. rewrite Z.mod_small; lia.
Qed.

Lemma wrap_range (z : Z) : Int64.in_range (Int64.wrap z).
Proof.
  unfold Int64.in_range, Int64.min_int, Int64.max_int, Int64.wrap.
  pose proof (Z.mod_pos_bound (z + 2 ^ 63) (2 ^ 64) ltac:(lia)). lia.
Qed.

(** ** The pacing helper [spawnInterval] *)

Lemma spawnInterval_floor (r : Z) : minSpawnInterval <= spawnInterval r.
Proof.
  unfold spawnInterval. cbv zeta.
  destruct (Z.ltb_spec (Int64.sub baseSpawnInterval (Int64.mul 2 r))
              minSpawnInterval); lia.
Qed.

Lemma spawnInterval_small (r : Z) :
  0 <= r < 2 ^ 62 ->
  spawnInterval r = Z.max minSpawnInterval (baseSpawnInterval - 2 * r).
Proof.
  intros Hr. unfold spawnInterval, Int64.sub, Int64.mul. cbv zeta.
  unfold baseSpawnInterval, minSpawnInterval.
  rewrite (wrap_small (2 * r))
    by (unfold Int64.in_range, Int64.min_int, Int64.max_int; lia).
  rewrite (wrap_small (32 - 2 * r))
    by (unfold Int64.in_range, Int64.min_int, Int64.max_int; lia).
  destruct (Z.ltb_spec (32 - 2 * r) 12); lia.
Qed.

(** ** [loseLife] *)

Lemma loseLife_blocked (g : Game) :
  (0 <? inv g) || win g || over g = true -> loseLife g = g.
Proof. intros H. unfold loseLife. now rewrite H. Qed.

Lemma loseLife_open (g : Game) :
  (0 <? inv g) || win g || over g = false ->
  loseLife g =
  (let g1 := play sHit (set_inv iframeTicks
                          (set_lives (Int64.sub (lives g) 1) g)) in
   if lives g1 <? 0 then set_over true g1 else g1).
Proof. intros H. unfold loseLife. now rewrite H. Qed.

(** After a call the window is open or the game has ended, unless the
    call was blocked on a state where neither holds, which cannot be. *)
Lemma loseLife_closes (g : Game) :
  (0 <? inv (loseLife g)) || win (loseLife g) || over (loseLife g) = true.
Proof.
  destruct ((0 <? inv g) || win g || over g) eqn:E.
  - now rewrite loseLife_blocked.
  - rewrite loseLife_open by assumption. cbv zeta.
    destruct (lives _ <? 0); reflexivity.
Qed.

Lemma loseLife_idem (g : Game) : loseLife (loseLife g) = loseLife g.
Proof. apply loseLife_blocked, loseLife_closes. Qed.

(** C9.  For every round index r >= 0 (the code calls [spawnInterval]
    with 0 and with [g.roundIdx] only, which stays between 0 and 6; the
    statement holds up to 2^62, where 2*r still fits a 64-bit int),
    [spawnInterval r] is max(minSpawnInterval, baseSpawnInterval - 2*r)
    and does not increase with r; on every int it is at least
    [minSpawnInterval] (= 12). *)
Theorem spawnInterval_spec (r r' : Z) :
  0 <= r <= r' -> r' < 2 ^ 62 ->
  spawnInterval r = Z.max minSpawnInterval (baseSpawnInterval - 2 * r)
  /\ (forall r0, minSpawnInterval <= spawnInterval r0)
  /\ minSpawnInterval = 12
  /\ spawnInterval r' <= spawnInterval r.
Proof.
  intros Hr Hr'. split; [| split; [| split]].
  - apply spawnInterval_small. lia.
  - apply spawnInterval_floor.
  - reflexivity.
  - rewrite !spawnInterval_small by lia. lia.
Qed.

(** Rounds 3 and 10. *)
Lemma spawnInterval_spec_witness :
  (0 <= 3 <= 10 /\ 10 < 2 ^ 62)
  /\ (spawnInterval 3 = Z.max minSpawnInterval (baseSpawnInterval - 2 * 3)
      /\ (forall r0, minSpawnInterval <= spawnInterval r0)
      /\ minSpawnInterval = 12
      /\ spawnInterval 10 <= spawnInterval 3).
Proof.
  split; [lia |]. apply (spawnInterval_spec 3 10); lia.
Defined.

(** C2.  [loseLife] does nothing while the window is open or after the
    game has ended; otherwise it takes exactly one life, opens the
    window of [iframeTicks] = 60 ticks, plays the hit sound, leaves the
    rest of the state alone and sets [over] iff lives fell below 0; from
    [startLives] the (startLives+1)-th such hit, and no earlier one,
    ends the game. *)
Theorem loseLife_spec (g : Game) :
  Int64.min_int < lives g <= Int64.max_int ->
  ((0 <? inv g) || win g || over g = true -> loseLife g = g)
  /\ ((0 <? inv g) || win g || over g = false ->
      lives (loseLife g) = lives g - 1
      /\ inv (loseLife g) = iframeTicks /\ iframeTicks = 60
      /\ (over (loseLife g) = true <-> lives (loseLife g) < 0)
      /\ win (loseLife g) = false
      /\ played (loseLife g) = played g ++ [sHit]
      /\ (px (loseLife g), py (loseLife g), playerSh (loseLife g),
          bullets (loseLife g), enemies (loseLife g), space (loseLife g),
          stars (loseLife g), bgOff (loseLife g), rng (loseLife g))
         = (px g, py g, playerSh g, bullets g, enemies g, space g,
            stars g, bgOff g, rng g)
      /\ (roundIdx (loseLife g), roundSpawned (loseLife g),
          roundKills (loseLife g), totalKills (loseLife g),
          cooldown (loseLife g), spawnTimer (loseLife g))
         = (roundIdx g, roundSpawned g, roundKills g, totalKills g,
            cooldown g, spawnTimer g))
  /\ (lives g = startLives -> win g = false -> over g = false ->
      over (hits (Z.to_nat startLives + 1) g) = true
      /\ lives (hits (Z.to_nat startLives + 1) g) = -1
      /\ forall n, (n <= Z.to_nat startLives)%nat ->
           over (hits n g) = false
           /\ lives (hits n g) = startLives - Z.of_nat n).
Proof.
  intros Hl. split; [apply loseLife_blocked | split].
  - intros Hopen. rewrite loseLife_open by assumption. cbv zeta.
    apply orb_false_elim in Hopen as [Hopen Hov].
    apply orb_false_elim in Hopen as [_ Hw].
    assert (Hs : Int64.sub (lives g) 1 = lives g - 1).
    { apply wrap_small. unfold Int64.in_range. lia. }
    destruct g; simpl in *. rewrite Hs.
    destruct (Z.ltb_spec (lives0 - 1) 0); simpl;
      repeat split; auto; try lia; try congruence.
  - intros Hs Hw Ho.
    assert (H0 : hits 0 g = g) by reflexivity.
    assert (Hstep : forall g', win g' = false -> over g' = false ->
              -1 < lives g' <= 2 ->
              lives (loseLife (set_inv 0 g')) = lives g' - 1
              /\ win (loseLife (set_inv 0 g')) = false
              /\ over (loseLife (set_inv 0 g')) = (lives g' - 1 <? 0)).
    { intros g' Hw' Ho' Hl'. unfold loseLife.
      destruct g'; simpl in *. subst. simpl. unfold Int64.sub.
      rewrite (wrap_small (lives0 - 1))
        by (unfold Int64.in_range, Int64.min_int, Int64.max_int; lia).
      destruct (lives0 - 1 <? 0) eqn:E; simpl; auto. }
    unfold startLives in *.
    destruct (Hstep g Hw Ho ltac:(lia)) as (L1 & W1 & O1).
    rewrite Hs in L1, O1. simpl in O1.
    destruct (Hstep _ W1 O1 ltac:(lia)) as (L2 & W2 & O2).
    rewrite L1 in L2, O2. simpl in O2, L2.
    destruct (Hstep _ W2 O2 ltac:(lia)) as (L3 & W3 & O3).
    rewrite L2 in L3, O3. simpl in O3, L3.
    split; [exact O3 | split; [exact L3 |]].
    intros n Hn. change (Z.to_nat 2) with 2%nat in Hn.
    destruct n as [| [| [| n]]]; simpl; try lia; auto.
Qed.

(** ** What each part of [Update] leaves alone *)

Create HintDb steps.
#[local] Hint Unfold scrollBackground movePlayer tickInv shoot spawnEnemy
  play loseLife AddRectangle Float64 roundView lifeView killView : steps.

(** Projections of a chain of field updates reduce by computation; the
    tests met on the way are split. *)
Ltac split_tests :=
  repeat (simpl;
          match goal with
          | |- context [match ?x with _ => _ end] => destruct x eqn:?
          end).

Ltac frame := intros; autounfold with steps; cbv zeta; split_tests;
              simpl; try reflexivity; try tauto.

Lemma fold_left_keeps {A B : Type} (f : A -> B -> A) (P : A -> Prop) :
  (forall a b, P a -> P (f a b)) ->
  forall l a, P a -> P (fold_left f l a).
Proof.
  intros Hf l. induction l as [| b l IH]; intros a Ha; simpl; auto.
Qed.

Lemma rounds_at_Some (i q : Z) :
  rounds_at i = Some q -> 0 <= i < len_rounds /\ 6 <= q <= 42.
Proof.
  unfold rounds_at, len_rounds, rounds.
  destruct (Z.ltb_spec i 0) as [| Hi]; [discriminate |].
  intros Hq.
  destruct (Z.to_nat i) as [| [| [| [| [| [| n]]]]]] eqn:Hn;
    simpl in Hq; try (destruct n; discriminate);
    injection Hq as <-; simpl; lia.
Qed.

Lemma rounds_at_in_bounds (i : Z) :
  0 <= i < len_rounds -> exists q, rounds_at i = Some q.
Proof.
  unfold rounds_at, len_rounds, rounds. simpl. intros Hi.
  destruct (Z.ltb_spec i 0); [lia |].
  destruct (nth_error [6; 12; 18; 24; 30; 42] (Z.to_nat i)) eqn:E; eauto.
  apply nth_error_None in E. simpl in E. lia.
Qed.

Lemma same_logic_trans (g1 g2 g3 : Game) :
  same_logic g1 g2 -> same_logic g2 g3 -> same_logic g1 g3.
Proof.
  unfold same_logic. intros (A1 & A2 & A3 & A4) (B1 & B2 & B3 & B4).
  repeat split; congruence.
Qed.

Lemma scrollBackground_logic (g : Game) :
  same_logic g (scrollBackground g) /\ inv (scrollBackground g) = inv g.
Proof. unfold same_logic. frame. Qed.

Lemma movePlayer_logic (inp : Input) (g : Game) :
  same_logic g (movePlayer inp g) /\ inv (movePlayer inp g) = inv g.
Proof. unfold same_logic, movePlayer. cbv zeta. simpl. auto 6. Qed.

Lemma tickInv_logic (g : Game) :
  same_logic g (tickInv g)
  /\ inv (tickInv g) = (if 0 <? inv g then Int64.sub (inv g) 1 else inv g).
Proof. unfold same_logic. frame. Qed.

Lemma shoot_logic (inp : Input) (g : Game) :
  same_logic g (shoot inp g) /\ inv (shoot inp g) = inv g.
Proof. unfold same_logic. frame. Qed.

(** The four steps before the spawns: only the window moves. *)
Lemma prelude_logic (inp : Input) (g : Game) :
  let g1 := shoot inp (tickInv (movePlayer inp (scrollBackground g))) in
  same_logic g g1
  /\ inv g1 = (if 0 <? inv g then Int64.sub (inv g) 1 else inv g).
Proof.
  cbv zeta.
  destruct (scrollBackground_logic g) as (A & Ai).
  destruct (movePlayer_logic inp (scrollBackground g)) as (B & Bi).
  destruct (tickInv_logic (movePlayer inp (scrollBackground g))) as (C & Ci).
  destruct (shoot_logic inp (tickInv (movePlayer inp (scrollBackground g))))
    as (D & Di).
  split.
  - eauto using same_logic_trans.
  - rewrite Di, Ci, Bi, Ai. reflexivity.
Qed.

Lemma spawnEnemies_views (g g' : Game) :
  spawnEnemies g = Some g' ->
  killView g' = killView g /\ lifeView g' = lifeView g
  /\ roundIdx g' = roundIdx g /\ win g' = win g
  /\ (roundSpawned g' = roundSpawned g
      \/ exists q, rounds_at (roundIdx g) = Some q
                   /\ roundSpawned g < q
                   /\ roundSpawned g' = Int64.add (roundSpawned g) 1).
Proof.
  unfold spawnEnemies. cbv zeta. simpl.
  destruct (_ && _); [| intros [= <-]; simpl; auto 6].
  destruct (rounds_at (roundIdx g)) as [q |] eqn:Hq; [| discriminate].
  destruct (Z.ltb_spec (roundSpawned g) q) as [Hlt | Hge];
    intros [= <-]; simpl.
  - unfold spawnEnemy, AddRectangle, Float64. simpl.
    repeat (split; [reflexivity |]). right. exists q. auto.
  - auto 6.
Qed.

Section WithResolv.
Context `{R : Resolv}.

Lemma bulletStep_views (acc : BulletLoop) (b : bullet) :
  roundView (fst (fst (bulletStep acc b))) = roundView (fst (fst acc))
  /\ lifeView (fst (fst (bulletStep acc b))) = lifeView (fst (fst acc))
  /\ enemies (fst (fst (bulletStep acc b))) = enemies (fst (fst acc)).
Proof.
  destruct acc as [[g dead] kept]. unfold bulletStep. cbv zeta. simpl.
  destruct (IntersectionTest _ _ _); simpl; [auto |].
  destruct (0 <? _)%float; auto.
Qed.

Lemma moveBullets_views (g : Game) :
  roundView (fst (moveBullets g)) = roundView g
  /\ lifeView (fst (moveBullets g)) = lifeView g
  /\ enemies (fst (moveBullets g)) = enemies g.
Proof.
  unfold moveBullets.
  assert (H : let acc := fold_left bulletStep (bullets g) (g, ∅, []) in
              roundView (fst (fst acc)) = roundView g
              /\ lifeView (fst (fst acc)) = lifeView g
              /\ enemies (fst (fst acc)) = enemies g).
  { apply (fold_left_keeps bulletStep
             (fun acc => roundView (fst (fst acc)) = roundView g
                         /\ lifeView (fst (fst acc)) = lifeView g
                         /\ enemies (fst (fst acc)) = enemies g));
      [| auto].
    intros a b (<- & <- & <-). apply bulletStep_views. }
  cbv zeta in H.
  destruct (fold_left bulletStep (bullets g) (g, ∅, [])) as [[g' d] k].
  exact H.
Qed.

Lemma loseLife_views (g : Game) :
  roundView (loseLife g) = roundView g /\ killView (loseLife g) = killView g.
Proof. frame. Qed.

Lemma touchPlayer_views (g : Game) :
  roundView (touchPlayer g) = roundView g
  /\ killView (touchPlayer g) = killView g.
Proof.
  unfold touchPlayer.
  destruct (inv g =? 0); [| auto].
  destruct (IntersectionTest _ _ _); [apply loseLife_views | auto].
Qed.

Lemma reapEnemy_views (dead : gset positive) (g : Game) (e : enemy) :
  roundView (fst (reapEnemy dead g e)) = roundView g
  /\ killView (fst (reapEnemy dead g e)) = killView g.
Proof.
  unfold reapEnemy.
  destruct (bool_decide _); [simpl; auto |].
  destruct (screenH <? _)%float; [| simpl; auto].
  simpl.
  destruct (loseLife_views (set_space (Remove (space g) (e_sh e)) g))
    as (-> & ->). auto.
Qed.

Lemma enemyStep_views (dead : gset positive) (acc : Game * list enemy)
    (e : enemy) :
  roundView (fst (enemyStep dead acc e)) = roundView (fst acc)
  /\ killView (fst (enemyStep dead acc e)) = killView (fst acc).
Proof.
  destruct acc as [g kept]. unfold enemyStep. cbv zeta.
  match goal with
  | |- context [reapEnemy dead ?g1 ?e1] =>
      destruct (reapEnemy_views dead g1 e1) as (A & B);
      destruct (reapEnemy dead g1 e1) as [g2 [e2 |]]
  end; simpl in *; rewrite A, B;
    match goal with
    | |- context [touchPlayer ?g1] =>
        destruct (touchPlayer_views g1) as (-> & ->)
    end; auto.
Qed.

Lemma moveEnemies_views (dead : gset positive) (g : Game) :
  roundView (moveEnemies dead g) = roundView g
  /\ killView (moveEnemies dead g) = killView g.
Proof.
  unfold moveEnemies.
  assert (H : let acc := fold_left (enemyStep dead) (enemies g) (g, []) in
              roundView (fst acc) = roundView g
              /\ killView (fst acc) = killView g).
  { apply (fold_left_keeps (enemyStep dead)
             (fun acc => roundView (fst acc) = roundView g
                         /\ killView (fst acc) = killView g)); [| auto].
    intros a b (<- & <-). apply enemyStep_views. }
  cbv zeta in H.
  destruct (fold_left (enemyStep dead) (enemies g) (g, [])) as [g' k].
  exact H.
Qed.

End WithResolv.

(** ** The tick as a whole *)

Section Tick.
Context `{R : Resolv}.

Lemma playTick_round (inp : Input) (g g1 : Game) :
  playTick inp g = Some g1 ->
  roundIdx g1 = roundIdx g /\ win g1 = win g
  /\ (roundSpawned g1 = roundSpawned g
      \/ exists q, rounds_at (roundIdx g) = Some q
                   /\ roundSpawned g < q
                   /\ roundSpawned g1 = Int64.add (roundSpawned g) 1).
Proof.
  unfold playTick. cbv zeta.
  destruct (prelude_logic inp g) as ((P1 & _) & _). cbv zeta in P1.
  destruct (spawnEnemies _) as [gs |] eqn:Hs; [| discriminate].
  apply spawnEnemies_views in Hs as (_ & _ & S1 & S2 & S3).
  destruct (moveBullets_views gs) as (B1 & _).
  destruct (moveBullets gs) as [gb dead]. simpl in B1.
  intros [= <-].
  destruct (moveEnemies_views dead gb) as (E1 & _).
  unfold roundView in *.
  injection E1 as E1 E2 E3 _. injection B1 as B1 B2 B3 _.
  injection P1 as P1 P2 P3 _.
  split; [congruence | split; [congruence |]].
  destruct S3 as [S3 | (q & Q1 & Q2 & Q3)]; [left; congruence |].
  right. exists q. rewrite <- P1, <- P2. repeat split; congruence.
Qed.

Lemma advanceRound_Some (g g' : Game) :
  advanceRound g = Some g' ->
  g' = g
  \/ exists q, rounds_at (roundIdx g) = Some q /\ q <= roundKills g
               /\ roundIdx g' = roundIdx g + 1
               /\ roundKills g' = 0 /\ roundSpawned g' = 0
               /\ spawnTimer g' = spawnInterval (roundIdx g')
               /\ win g' = (if len_rounds <=? roundIdx g' then true
                            else win g)
               /\ lifeView g' = lifeView g.
Proof.
  unfold advanceRound. cbv zeta.
  destruct (roundIdx g <? len_rounds); [| intros [= <-]; auto].
  destruct (rounds_at (roundIdx g)) as [q |] eqn:Hq; [| discriminate].
  destruct (Z.leb_spec q (roundKills g)); [| intros [= <-]; auto].
  apply rounds_at_Some in Hq as Hb. destruct Hb as (Hi & _).
  assert (Ha : Int64.add (roundIdx g) 1 = roundIdx g + 1).
  { apply wrap_small. revert Hi. unfold len_rounds, Int64.in_range,
      Int64.min_int, Int64.max_int. simpl. lia. }
  simpl. rewrite Ha. intros [= <-]. right. exists q.
  destruct (len_rounds <=? roundIdx g + 1) eqn:E; simpl; rewrite ?Ha, ?E;
    repeat split; auto.
Qed.

Lemma advanceRound_fires (g : Game) (q : Z) :
  roundIdx g < len_rounds ->
  rounds_at (roundIdx g) = Some q ->
  q <= roundKills g ->
  exists g', advanceRound g = Some g'
    /\ roundIdx g' = roundIdx g + 1
    /\ roundKills g' = 0 /\ roundSpawned g' = 0
    /\ spawnTimer g' = spawnInterval (roundIdx g')
    /\ win g' = (if len_rounds <=? roundIdx g' then true else win g).
Proof.
  intros Hi Hq Hk. unfold advanceRound. cbv zeta.
  destruct (Z.ltb_spec (roundIdx g) len_rounds); [| lia].
  rewrite Hq. destruct (Z.leb_spec q (roundKills g)); [| lia].
  apply rounds_at_Some in Hq as (Hb & _).
  assert (Ha : Int64.add (roundIdx g) 1 = roundIdx g + 1).
  { apply wrap_small. revert Hb. unfold len_rounds, Int64.in_range,
      Int64.min_int, Int64.max_int. simpl. lia. }
  eexists. split; [reflexivity |]. simpl. rewrite Ha.
  destruct (len_rounds <=? roundIdx g + 1) eqn:E; simpl; rewrite ?Ha, ?E;
    repeat split; auto.
Qed.

Lemma Update_roundIdx_mono (g g' : Game) (inp : Input) :
  Update g inp = Some g' -> roundIdx g <= roundIdx g'.
Proof.
  unfold Update. destruct (win g || over g); [intros [= <-]; lia |].
  destruct (playTick inp g) as [g1 |] eqn:Hp; [| discriminate].
  apply playTick_round in Hp as (<- & _).
  intros Ha. apply advanceRound_Some in Ha as [-> | (q & _ & _ & -> & _)];
    lia.
Qed.

Lemma run_roundIdx_mono (inps : list Input) (g g' : Game) :
  run g inps = Some g' -> roundIdx g <= roundIdx g'.
Proof.
  revert g. induction inps as [| i inps IH]; intros g; simpl.
  - intros [= <-]. lia.
  - destruct (Update g i) as [g1 |] eqn:Hu; [| discriminate].
    intros Hr. apply Update_roundIdx_mono in Hu. apply IH in Hr. lia.
Qed.

Lemma Update_frozen (g : Game) (inp : Input) :
  win g || over g = true -> Update g inp = Some g.
Proof. intros H. unfold Update. now rewrite H. Qed.

(** C1.  Once [win] or [over] is set, [Update] returns the state it was
    given, whatever the keys: positions, entities, space, timers,
    counters and the sound log are all the same, and so it stays over
    any number of later ticks. *)
Theorem terminal_state_frozen (g : Game) (inp : Input)
    (inps : list Input) :
  win g || over g = true ->
  Update g inp = Some g /\ run g inps = Some g.
Proof.
  intros H. split; [now apply Update_frozen |].
  induction inps as [| i inps IH]; simpl; [reflexivity |].
  now rewrite Update_frozen.
Qed.

(** C3.  When the tick ends with the kills of the round at or above the
    quota of the current round (the round index being in bounds), the
    round index goes up by exactly 1, both round counters are back at 0,
    the spawn timer is reset to the interval of the new round, and [win]
    is set exactly when the new index has reached the number of rounds
    (6); over any run the round index never goes down. *)
Theorem round_advance (g g1 : Game) (inp : Input) (quota : Z) :
  win g || over g = false ->
  playTick inp g = Some g1 ->
  roundIdx g1 < len_rounds ->
  rounds_at (roundIdx g1) = Some quota ->
  quota <= roundKills g1 ->
  (exists g', Update g inp = Some g'
     /\ roundIdx g' = roundIdx g + 1
     /\ roundKills g' = 0 /\ roundSpawned g' = 0
     /\ spawnTimer g' = spawnInterval (roundIdx g')
     /\ (win g' = true <-> len_rounds <= roundIdx g')
     /\ len_rounds = 6)
  /\ (forall g0 inps gn, run g0 inps = Some gn -> roundIdx g0 <= roundIdx gn).
Proof.
  intros Hplay Hp Hi Hq Hk.
  split; [| intros g0 inps gn; apply run_roundIdx_mono].
  unfold Update. rewrite Hplay, Hp.
  apply playTick_round in Hp as (Hidx & Hwin & _).
  apply orb_false_elim in Hplay as (Hw & _).
  destruct (advanceRound_fires g1 quota Hi Hq Hk)
    as (g' & -> & A1 & A2 & A3 & A4 & A5).
  exists g'. rewrite A1, Hidx in *. rewrite Hwin, Hw in A5.
  repeat split; auto.
  - rewrite A5. destruct (Z.leb_spec len_rounds (roundIdx g + 1));
      [auto | discriminate].
  - rewrite A5. destruct (Z.leb_spec len_rounds (roundIdx g + 1));
      [auto | lia].
Qed.

End Tick.

(** ** Spawns and the quota *)

Lemma spawn_suppressed (g : Game) (q : Z) :
  rounds_at (roundIdx g) = Some q ->
  Int64.sub (spawnTimer g) 1 <= 0 ->
  q <= roundSpawned g ->
  spawnEnemies g
  = Some (set_spawnTimer (spawnInterval (roundIdx g))
            (set_spawnTimer (Int64.sub (spawnTimer g) 1) g)).
Proof.
  intros Hq Ht Hs. unfold spawnEnemies. cbv zeta. simpl.
  apply rounds_at_Some in Hq as Hb. destruct Hb as (Hb & _).
  destruct (Z.leb_spec (Int64.sub (spawnTimer g) 1) 0); [| lia].
  destruct (Z.ltb_spec (roundIdx g) len_rounds); [| lia].
  simpl. rewrite Hq.
  destruct (Z.ltb_spec (roundSpawned g) q); [lia | reflexivity].
Qed.

Lemma spawnEnemies_total (g : Game) (q : Z) :
  rounds_at (roundIdx g) = Some q -> exists g', spawnEnemies g = Some g'.
Proof.
  intros Hq. unfold spawnEnemies. cbv zeta. simpl. rewrite Hq.
  destruct (_ && _); eauto.
Qed.

Section Quota.
Context `{R : Resolv}.

Lemma newGame_quota_ok (source : nat -> float) (img : option Z) :
  quota_ok (newGame source img).
Proof.
  unfold quota_ok, newGame. cbv zeta.
  destruct (AddRectangle _ _ _ _ _ _) as [psh sp].
  destruct (newStars _ _) as [sts r]. simpl.
  intros _. exists 6. split; [reflexivity | lia].
Qed.

Lemma Update_quota_ok (g g' : Game) (inp : Input) :
  quota_ok g -> Update g inp = Some g' -> quota_ok g'.
Proof.
  intros Hg. unfold Update.
  destruct (win g || over g); [intros [= <-]; exact Hg |].
  destruct (playTick inp g) as [g1 |] eqn:Hp; [| discriminate].
  apply playTick_round in Hp as (Hidx & Hwin & Hsp).
  assert (H1 : quota_ok g1).
  { unfold quota_ok in *. rewrite Hidx, Hwin. intros Hw.
    destruct (Hg Hw) as (q & Hq & Hr). exists q. split; [exact Hq |].
    destruct Hsp as [-> | (q' & Hq' & Hlt & ->)]; [exact Hr |].
    assert (q' = q) by congruence. subst q'.
    apply rounds_at_Some in Hq as (_ & Hq).
    unfold Int64.add. rewrite wrap_small; [lia |].
    unfold Int64.in_range, Int64.min_int, Int64.max_int. lia. }
  intros Ha. apply advanceRound_Some in Ha
    as [-> | (q & Hq & _ & A1 & _ & A3 & _ & A5 & _)]; [exact H1 |].
  unfold quota_ok. rewrite A5, A3.
  destruct (Z.leb_spec len_rounds (roundIdx g')); [discriminate |].
  intros _. destruct (rounds_at_in_bounds (roundIdx g')) as (q' & Hq').
  { apply rounds_at_Some in Hq. lia. }
  exists q'. split; [exact Hq' |].
  apply rounds_at_Some in Hq'. lia.
Qed.

Lemma Reachable_quota_ok (g : Game) : Reachable g -> quota_ok g.
Proof.
  induction 1 as [source img | g inp g' _ IH Hu].
  - apply newGame_quota_ok.
  - eapply Update_quota_ok; eassumption.
Qed.

Lemma Update_total (g : Game) (inp : Input) :
  quota_ok g -> exists g', Update g inp = Some g'.
Proof.
  intros Hg. unfold Update.
  destruct (win g || over g) eqn:Ht; [eauto |].
  apply orb_false_elim in Ht as (Hw & _).
  destruct (Hg Hw) as (q & Hq & _).
  unfold playTick. cbv zeta.
  destruct (prelude_logic inp g) as ((P1 & _) & _). cbv zeta in P1.
  injection P1 as P1 _ _ _.
  destruct (spawnEnemies_total
              (shoot inp (tickInv (movePlayer inp (scrollBackground g)))) q)
    as (gs & Hs); [congruence |].
  rewrite Hs. apply spawnEnemies_views in Hs as (_ & _ & S1 & _).
  destruct (moveBullets_views gs) as (B1 & _).
  destruct (moveBullets gs) as [gb dead]. simpl in B1.
  destruct (moveEnemies_views dead gb) as (E1 & _).
  injection B1 as B1 _ _ _. injection E1 as E1 _ _ _.
  unfold advanceRound. cbv zeta.
  replace (roundIdx (moveEnemies dead gb)) with (roundIdx g) by congruence.
  rewrite Hq. destruct (_ <? _); [| eauto]. destruct (_ <=? _); eauto.
Qed.

(** C10.  In a reachable state of a game still being played the number
    of enemies spawned in the round is at most the quota of the round,
    [Update] returns a state (no index runs out of [rounds]), and when
    the spawn timer runs out with the quota already met, the spawn step
    adds no enemy and no shape and only restarts the timer. *)
Theorem spawn_within_quota (g : Game) (inp : Input) :
  Reachable g -> win g = false -> over g = false ->
  (exists q, rounds_at (roundIdx g) = Some q /\ roundSpawned g <= q)
  /\ (exists g', Update g inp = Some g')
  /\ (forall g0 q, rounds_at (roundIdx g0) = Some q ->
        Int64.sub (spawnTimer g0) 1 <= 0 -> q <= roundSpawned g0 ->
        exists g1, spawnEnemies g0 = Some g1
          /\ enemies g1 = enemies g0 /\ space g1 = space g0
          /\ roundSpawned g1 = roundSpawned g0 /\ rng g1 = rng g0
          /\ spawnTimer g1 = spawnInterval (roundIdx g0)).
Proof.
  intros Hr Hw Ho. apply Reachable_quota_ok in Hr as Hq.
  split; [| split].
  - destruct (Hq Hw) as (q & Hq1 & Hq2). exists q. split; [auto | lia].
  - now apply Update_total.
  - intros g0 q H1 H2 H3. rewrite (spawn_suppressed g0 q H1 H2 H3).
    eexists. split; [reflexivity |]. simpl. auto.
Qed.

End Quota.

(** ** Lives *)

Lemma loseLife_one_hit (l : Z) (g : Game) :
  one_hit l g -> one_hit l (loseLife g).
Proof.
  unfold one_hit. intros [Hl | (Hl & Hi)].
  - destruct ((0 <? inv g) || win g || over g) eqn:E.
    + rewrite loseLife_blocked by assumption. auto.
    + rewrite loseLife_open by assumption. cbv zeta. right.
      destruct (lives _ <? 0); simpl; rewrite Hl; auto.
  - rewrite loseLife_blocked; [auto |]. rewrite Hi. reflexivity.
Qed.

Lemma loseLife_window (g : Game) : 0 < inv g -> loseLife g = g.
Proof.
  intros Hi. apply loseLife_blocked.
  destruct (Z.ltb_spec 0 (inv g)); [reflexivity | lia].
Qed.

Section Lives.
Context `{R : Resolv}.

Lemma enemyStep_one_hit (l : Z) (dead : gset positive)
    (acc : Game * list enemy) (e : enemy) :
  one_hit l (fst acc) -> one_hit l (fst (enemyStep dead acc e)).
Proof.
  destruct acc as [g kept]. simpl. intros Hg.
  unfold enemyStep. cbv zeta.
  set (g1 := set_space _ g).
  assert (H1 : one_hit l g1) by exact Hg.
  assert (H2 : one_hit l (touchPlayer g1)).
  { unfold touchPlayer. destruct (inv g1 =? 0); [| exact H1].
    destruct (IntersectionTest _ _ _); [| exact H1].
    now apply loseLife_one_hit. }
  unfold reapEnemy.
  destruct (bool_decide _); [exact H2 |].
  destruct (screenH <? _)%float; [| exact H2].
  simpl. apply loseLife_one_hit. exact H2.
Qed.

Lemma moveEnemies_one_hit (l : Z) (dead : gset positive) (g : Game) :
  one_hit l g -> one_hit l (moveEnemies dead g).
Proof.
  intros Hg. unfold moveEnemies.
  assert (H : one_hit l (fst (fold_left (enemyStep dead) (enemies g)
                                (g, [])))).
  { apply (fold_left_keeps (enemyStep dead) (fun acc => one_hit l (fst acc)));
      [| exact Hg].
    intros a b. apply enemyStep_one_hit. }
  destruct (fold_left (enemyStep dead) (enemies g) (g, [])) as [g' k].
  exact H.
Qed.

(** With the window open the enemy loop takes no life at all. *)
Lemma enemyStep_window (dead : gset positive) (acc : Game * list enemy)
    (e : enemy) :
  0 < inv (fst acc) ->
  lifeView (fst (enemyStep dead acc e)) = lifeView (fst acc).
Proof.
  destruct acc as [g kept]. simpl. intros Hi.
  unfold enemyStep. cbv zeta.
  set (g1 := set_space _ g).
  assert (E1 : touchPlayer g1 = g1).
  { unfold touchPlayer. change (inv g1) with (inv g).
    destruct (Z.eqb_spec (inv g) 0); [lia | reflexivity]. }
  rewrite E1. unfold reapEnemy.
  destruct (bool_decide _); [reflexivity |].
  destruct (screenH <? _)%float; [| reflexivity].
  simpl. rewrite loseLife_window; [reflexivity | exact Hi].
Qed.

Lemma moveEnemies_window (dead : gset positive) (g : Game) :
  0 < inv g -> lifeView (moveEnemies dead g) = lifeView g.
Proof.
  intros Hi. unfold moveEnemies.
  assert (H : lifeView (fst (fold_left (enemyStep dead) (enemies g)
                               (g, []))) = lifeView g).
  { apply (fold_left_keeps (enemyStep dead)
             (fun acc => lifeView (fst acc) = lifeView g)); [| reflexivity].
    intros a b Ha. rewrite <- Ha. apply enemyStep_window.
    injection Ha as _ -> _. exact Hi. }
  destruct (fold_left (enemyStep dead) (enemies g) (g, [])) as [g' k].
  exact H.
Qed.

(** The state the enemy loop of a tick starts from. *)
Lemma playTick_lives (inp : Input) (g g1 : Game) :
  playTick inp g = Some g1 ->
  exists gb dead,
    g1 = moveEnemies dead gb /\ lives gb = lives g
    /\ inv gb = (if 0 <? inv g then Int64.sub (inv g) 1 else inv g)
    /\ over gb = over g.
Proof.
  unfold playTick. cbv zeta.
  destruct (prelude_logic inp g) as ((_ & _ & P1 & P3) & P2).
  cbv zeta in P1, P2, P3.
  destruct (spawnEnemies _) as [gs |] eqn:Hs; [| discriminate].
  apply spawnEnemies_views in Hs as (_ & S1 & _).
  destruct (moveBullets_views gs) as (_ & B1 & _).
  destruct (moveBullets gs) as [gb dead]. simpl in B1.
  intros [= <-]. exists gb, dead. unfold lifeView in *.
  injection B1 as B1 B2 B3. injection S1 as S1 S2 S3.
  split; [reflexivity |]. repeat split; congruence.
Qed.

Lemma Update_lives (g g' : Game) (inp : Input) :
  Update g inp = Some g' ->
  one_hit (lives g) g'
  /\ (1 < inv g <= Int64.max_int -> lives g' = lives g).
Proof.
  unfold Update. destruct (win g || over g).
  { intros [= <-]. split; [left; reflexivity | reflexivity]. }
  destruct (playTick inp g) as [g1 |] eqn:Hp; [| discriminate].
  apply playTick_lives in Hp as (gb & dead & -> & Hl & Hi & _).
  intros Ha.
  assert (Hv : lifeView g' = lifeView (moveEnemies dead gb)).
  { apply advanceRound_Some in Ha as [-> | (q & H)]; [reflexivity |].
    tauto. }
  unfold lifeView in Hv. injection Hv as Hv1 Hv2 _.
  split.
  - assert (H1 : one_hit (lives g) (moveEnemies dead gb)).
    { apply moveEnemies_one_hit. left. exact Hl. }
    unfold one_hit in *. rewrite Hv1, Hv2. exact H1.
  - intros Hw.
    assert (Hpos : 0 < inv gb).
    { rewrite Hi. destruct (Z.ltb_spec 0 (inv g)); [| lia].
      unfold Int64.sub. rewrite wrap_small; [lia |].
      unfold Int64.in_range, Int64.min_int, Int64.max_int in *. lia. }
    pose proof (moveEnemies_window dead gb Hpos) as Hm.
    unfold lifeView in Hm. injection Hm as Hm _ _. congruence.
Qed.

Lemma loseLife_lives_ok (g : Game) : lives_ok g -> lives_ok (loseLife g).
Proof.
  unfold lives_ok, startLives. intros (Hl & Ho).
  destruct ((0 <? inv g) || win g || over g) eqn:E.
  - rewrite loseLife_blocked by assumption. auto.
  - rewrite loseLife_open by assumption. cbv zeta.
    apply orb_false_elim in E as (_ & Hov). specialize (Ho Hov).
    assert (Hs : Int64.sub (lives g) 1 = lives g - 1).
    { apply wrap_small. unfold Int64.in_range, Int64.min_int,
        Int64.max_int. lia. }
    simpl. rewrite Hs.
    destruct (Z.ltb_spec (lives g - 1) 0); simpl; rewrite ?Hs;
      split; try lia; intros; try discriminate; try lia.
Qed.

Lemma moveEnemies_lives_ok (dead : gset positive) (g : Game) :
  lives_ok g -> lives_ok (moveEnemies dead g).
Proof.
  intros Hg. unfold moveEnemies.
  assert (H : lives_ok (fst (fold_left (enemyStep dead) (enemies g)
                               (g, [])))).
  { apply (fold_left_keeps (enemyStep dead) (fun acc => lives_ok (fst acc)));
      [| exact Hg].
    intros [g0 kept] e H0. simpl in H0. unfold enemyStep. cbv zeta.
    set (g1 := set_space _ g0).
    assert (H1 : lives_ok g1) by exact H0.
    assert (H2 : lives_ok (touchPlayer g1)).
    { unfold touchPlayer. destruct (inv g1 =? 0); [| exact H1].
      destruct (IntersectionTest _ _ _); [| exact H1].
      now apply loseLife_lives_ok. }
    unfold reapEnemy.
    destruct (bool_decide _); [exact H2 |].
    destruct (screenH <? _)%float; [| exact H2].
    simpl. apply loseLife_lives_ok. exact H2. }
  destruct (fold_left (enemyStep dead) (enemies g) (g, [])) as [g' k].
  exact H.
Qed.

Lemma Update_lives_ok (g g' : Game) (inp : Input) :
  lives_ok g -> Update g inp = Some g' -> lives_ok g'.
Proof.
  intros Hg. unfold Update.
  destruct (win g || over g); [intros [= <-]; exact Hg |].
  destruct (playTick inp g) as [g1 |] eqn:Hp; [| discriminate].
  apply playTick_lives in Hp as (gb & dead & -> & Hl & _ & Ho).
  intros Ha.
  assert (Hb : lives_ok (moveEnemies dead gb)).
  { apply moveEnemies_lives_ok. unfold lives_ok in *. now rewrite Hl, Ho. }
  assert (Hv : lifeView g' = lifeView (moveEnemies dead gb)).
  { apply advanceRound_Some in Ha as [-> | (q & H)]; [reflexivity |].
    tauto. }
  unfold lifeView in Hv. injection Hv as Hv1 _ Hv3.
  unfold lives_ok in *. now rewrite Hv1, Hv3.
Qed.

(** Every state of a game has between -1 and [startLives] lives, and 0
    or more as long as the game is not over. *)
Lemma Reachable_lives_ok (g : Game) : Reachable g -> lives_ok g.
Proof.
  induction 1 as [source img | g inp g' _ IH Hu].
  - unfold lives_ok, newGame. cbv zeta.
    destruct (AddRectangle _ _ _ _ _ _) as [psh sp].
    destruct (newStars _ _) as [sts r]. simpl. unfold startLives.
    split; [lia | intros _; lia].
  - eapply Update_lives_ok; eassumption.
Qed.

(** C7.  One tick takes at most one life, however many enemies touch
    the player or leave through the bottom: [loseLife] does nothing
    while the window is open, the first hit of the tick opens it
    ([iframeTicks] = 60), and on the tick after a hit no life is lost
    either. *)
Theorem one_life_per_tick (g g' : Game) (inp : Input) :
  Int64.min_int < lives g <= Int64.max_int ->
  Update g inp = Some g' ->
  (lives g' = lives g \/ (lives g' = lives g - 1 /\ inv g' = iframeTicks))
  /\ (forall g0, 0 < inv g0 -> loseLife g0 = g0)
  /\ (forall g0, 0 < inv (loseLife g0) \/ win (loseLife g0) = true
                 \/ over (loseLife g0) = true)
  /\ (lives g' = lives g - 1 ->
      forall inp2 g2, Update g' inp2 = Some g2 -> lives g2 = lives g').
Proof.
  intros Hl Hu. pose proof (Update_lives g g' inp Hu) as (H1 & _).
  assert (Hs : Int64.sub (lives g) 1 = lives g - 1).
  { apply wrap_small. unfold Int64.in_range. lia. }
  unfold one_hit in H1. rewrite Hs in H1.
  split; [exact H1 | split; [apply loseLife_window | split]].
  - intros g0. pose proof (loseLife_closes g0) as Hc.
    apply orb_true_iff in Hc as [Hc | Hc]; [| auto].
    apply orb_true_iff in Hc as [Hc | Hc]; [| auto].
    left. now apply Z.ltb_lt.
  - intros Hd inp2 g2 Hu2.
    destruct H1 as [H1 | (_ & Hi)]; [lia |].
    apply (Update_lives g' g2 inp2 Hu2). rewrite Hi.
    unfold iframeTicks, Int64.max_int. lia.
Qed.

(** ** The two end flags *)

(** C8 (as amended).  A reachable state has both [win] and [over] set
    only if one and the same tick, started with neither set, raised
    both (the last life lost in the enemy loop and the last quota met
    in the round test that follows it); from then on the state is
    frozen. *)
Theorem both_flags_same_tick (g : Game) :
  Reachable g -> win g = true -> over g = true ->
  exists g0 inp,
    Reachable g0 /\ win g0 = false /\ over g0 = false
    /\ Update g0 inp = Some g
    /\ forall inp' g', Update g inp' = Some g' -> g' = g.
Proof.
  intros Hr Hw Ho.
  assert (Hfix : forall inp' g', Update g inp' = Some g' -> g' = g).
  { intros inp' g'. rewrite Update_frozen by (rewrite Hw; reflexivity).
    congruence. }
  revert Hw Ho Hfix.
  induction Hr as [source img | g inp g' Hr IH Hu]; intros Hw Ho Hfix.
  - exfalso. revert Hw. unfold newGame. cbv zeta.
    destruct (AddRectangle _ _ _ _ _ _) as [psh sp].
    destruct (newStars _ _) as [sts r]. simpl. discriminate.
  - destruct (win g || over g) eqn:Ht.
    + rewrite Update_frozen in Hu by assumption.
      injection Hu as <-. auto.
    + apply orb_false_elim in Ht as (Hw0 & Ho0).
      exists g, inp. auto 6.
Qed.

End Lives.

(** ** The spatial index *)

Lemma lookup_Remove (sp : Space) (i : positive) :
  lookup_shape (Remove sp i) i = None.
Proof.
  unfold lookup_shape, Remove. simpl.
  induction (shapes sp) as [| s l IH]; simpl; [reflexivity |].
  destruct (Pos.eqb (sid s) i) eqn:E; simpl; [exact IH |].
  rewrite E. exact IH.
Qed.

Lemma wrap_add_l (a b : Z) :
  Int64.wrap (Int64.wrap a + b) = Int64.wrap (a + b).
Proof.
  unfold Int64.wrap.
  replace ((a + 2 ^ 63) mod 2 ^ 64 - 2 ^ 63 + b + 2 ^ 63)
    with ((a + 2 ^ 63) mod 2 ^ 64 + b) by lia.
  rewrite Zplus_mod_idemp_l. f_equal. f_equal. lia.
Qed.

Lemma size_mark (h : positive) (dead : gset positive) :
  (size ({[ h ]} ∪ dead) <= S (size dead))%nat.
Proof.
  rewrite size_union_alt, size_singleton.
  pose proof (subseteq_size (dead ∖ {[ h ]}) dead
                (subseteq_difference_l dead {[ h ]} dead (reflexivity dead))).
  lia.
Qed.

(** ** The bullet loop *)

Section Bullets.
Context `{R : Resolv}.

Lemma bulletStep_hit (g : Game) (dead : gset positive) (kept : list bullet)
    (b : bullet) (h : positive) :
  IntersectionTest
    (SetPosition (space g) (b_sh b) (b_x b) (b_y b + b_vy b)%float)
    (b_sh b) tagEnemy = Some h ->
  bulletStep (g, dead, kept) b
  = (play sHit
       (set_totalKills (Int64.add (totalKills g) 1)
          (set_roundKills (Int64.add (roundKills g) 1)
             (set_space
                (Remove (SetPosition (space g) (b_sh b) (b_x b)
                           (b_y b + b_vy b)%float) (b_sh b)) g))),
     {[ h ]} ∪ dead, kept).
Proof. intros H. unfold bulletStep. cbv zeta. simpl. now rewrite H. Qed.

Lemma bulletStep_miss (g : Game) (dead : gset positive) (kept : list bullet)
    (b : bullet) :
  IntersectionTest
    (SetPosition (space g) (b_sh b) (b_x b) (b_y b + b_vy b)%float)
    (b_sh b) tagEnemy = None ->
  bulletStep (g, dead, kept) b
  = if (0 <? b_y b + b_vy b + bulletSize)%float
    then (set_space (SetPosition (space g) (b_sh b) (b_x b)
                       (b_y b + b_vy b)%float) g,
          dead,
          kept ++ [{| b_x := b_x b; b_y := (b_y b + b_vy b)%float;
                      b_vy := b_vy b; b_sh := b_sh b |}])
    else (set_space
            (Remove (SetPosition (space g) (b_sh b) (b_x b)
                       (b_y b + b_vy b)%float) (b_sh b)) g,
          dead, kept).
Proof. intros H. unfold bulletStep. cbv zeta. simpl. now rewrite H. Qed.

(** C4 (as amended).  A bullet that hits nothing is kept iff, after its
    move, [y + bulletSize > 0]: at [y + bulletSize <= 0] it is dropped
    from the slice and its shape leaves the space in the same step.
    Either way the step marks no enemy, plays no sound and leaves the
    kill counters alone. *)
Theorem bullet_without_hit (g : Game) (dead : gset positive)
    (kept : list bullet) (b : bullet) :
  IntersectionTest
    (SetPosition (space g) (b_sh b) (b_x b) (b_y b + b_vy b)%float)
    (b_sh b) tagEnemy = None ->
  let b' := {| b_x := b_x b; b_y := (b_y b + b_vy b)%float;
               b_vy := b_vy b; b_sh := b_sh b |} in
  let '(g', dead', kept') := bulletStep (g, dead, kept) b in
  ((0 <? b_y b' + bulletSize)%float = true ->
     kept' = kept ++ [b']
     /\ lookup_shape (space g') (b_sh b)
        = lookup_shape (SetPosition (space g) (b_sh b) (b_x b) (b_y b'))
            (b_sh b))
  /\ ((0 <? b_y b' + bulletSize)%float = false ->
        kept' = kept /\ lookup_shape (space g') (b_sh b) = None)
  /\ dead' = dead /\ played g' = played g /\ killView g' = killView g.
Proof.
  intros H. cbv zeta. rewrite (bulletStep_miss g dead kept b H). simpl.
  destruct (0 <? b_y b + b_vy b + bulletSize)%float; simpl.
  - repeat split; auto; discriminate.
  - repeat split; auto; try discriminate. apply lookup_Remove.
Qed.

(** The bullet loop from any point on: [n] bullets hit, each one plays
    the hit sound and adds 1 to both counters. *)
Lemma bulletLoop_counts (l : list bullet) :
  forall (g : Game) (dead : gset positive) (kept : list bullet),
    Int64.in_range (roundKills g) -> Int64.in_range (totalKills g) ->
    exists n : nat,
      let '(g', dead', kept') := fold_left bulletStep l (g, dead, kept) in
      played g' = played g ++ repeat sHit n
      /\ roundKills g' = Int64.wrap (roundKills g + Z.of_nat n)
      /\ totalKills g' = Int64.wrap (totalKills g + Z.of_nat n)
      /\ (size dead' <= size dead + n)%nat
      /\ (length kept' + n <= length kept + length l)%nat.
Proof.
  induction l as [| b l IH]; intros g dead kept Hr Ht.
  - exists 0%nat. simpl. rewrite app_nil_r, !Z.add_0_r.
    rewrite !wrap_small by assumption. repeat split; lia.
  - cbn [fold_left].
    destruct (IntersectionTest
                (SetPosition (space g) (b_sh b) (b_x b)
                   (b_y b + b_vy b)%float) (b_sh b) tagEnemy)
      as [h |] eqn:Hit.
    + rewrite (bulletStep_hit g dead kept b h Hit).
      match goal with
      | |- context [fold_left bulletStep l (?g1, ?d1, ?k1)] =>
          destruct (IH g1 d1 k1) as (n & Hn);
          [apply wrap_range | apply wrap_range |];
          destruct (fold_left bulletStep l (g1, d1, k1)) as [[g' dead'] kept']
      end.
      simpl in Hn. destruct Hn as (H1 & H2 & H3 & H4 & H5).
      exists (S n). simpl in *.
      pose proof (size_mark h dead).
      rewrite H1, H2, H3. unfold Int64.add.
      rewrite !wrap_add_l, <- !app_assoc. simpl.
      repeat split; try lia; f_equal; lia.
    + rewrite (bulletStep_miss g dead kept b Hit).
      destruct (0 <? b_y b + b_vy b + bulletSize)%float.
      * match goal with
        | |- context [fold_left bulletStep l (?g1, ?d1, ?k1)] =>
            destruct (IH g1 d1 k1) as (n & Hn); [exact Hr | exact Ht |];
            destruct (fold_left bulletStep l (g1, d1, k1))
              as [[g' dead'] kept']
        end.
        simpl in Hn. destruct Hn as (H1 & H2 & H3 & H4 & H5).
        exists n. rewrite length_app in H5. simpl in H5. simpl.
        repeat split; auto; lia.
      * match goal with
        | |- context [fold_left bulletStep l (?g1, ?d1, ?k1)] =>
            destruct (IH g1 d1 k1) as (n & Hn); [exact Hr | exact Ht |];
            destruct (fold_left bulletStep l (g1, d1, k1))
              as [[g' dead'] kept']
        end.
        simpl in Hn. destruct Hn as (H1 & H2 & H3 & H4 & H5).
        exists n. simpl. repeat split; auto; lia.
Qed.

(** In the bullet loop a bullet marks at most one enemy (the first one
    the test reports); a bullet that hits is dropped and its shape
    removed in that step, which plays the hit sound once and adds 1 to
    both kill counters, without a look at the [dead] map. *)
Lemma kills_count_hits (g : Game) :
  Int64.in_range (roundKills g) -> Int64.in_range (totalKills g) ->
  roundKills g + Z.of_nat (length (bullets g)) <= Int64.max_int ->
  totalKills g + Z.of_nat (length (bullets g)) <= Int64.max_int ->
  (exists n : nat,
     let '(g', dead) := moveBullets g in
     played g' = played g ++ repeat sHit n
     /\ roundKills g' = roundKills g + Z.of_nat n
     /\ totalKills g' = totalKills g + Z.of_nat n
     /\ (size dead <= n)%nat
     /\ (length (bullets g') + n <= length (bullets g))%nat)
  /\ (forall g0 dead kept b h,
        IntersectionTest
          (SetPosition (space g0) (b_sh b) (b_x b) (b_y b + b_vy b)%float)
          (b_sh b) tagEnemy = Some h ->
        let '(g1, dead1, kept1) := bulletStep (g0, dead, kept) b in
        dead1 = {[ h ]} ∪ dead /\ kept1 = kept
        /\ lookup_shape (space g1) (b_sh b) = None
        /\ played g1 = played g0 ++ [sHit]
        /\ roundKills g1 = Int64.add (roundKills g0) 1
        /\ totalKills g1 = Int64.add (totalKills g0) 1).
Proof.
  intros Hr Ht Hr' Ht'. split.
  - destruct (bulletLoop_counts (bullets g) g ∅ [] Hr Ht) as (n & Hn).
    exists n. unfold moveBullets.
    destruct (fold_left bulletStep (bullets g) (g, ∅, []))
      as [[g' dead] kept].
    simpl in *. destruct Hn as (H1 & H2 & H3 & H4 & H5).
    try rewrite size_empty in H4.
    unfold Int64.in_range, Int64.min_int, Int64.max_int in *.
    rewrite H2, H3, !wrap_small
      by (unfold Int64.in_range, Int64.min_int, Int64.max_int; lia).
    repeat split; auto; lia.
  - intros g0 dead kept b h Hit.
    rewrite (bulletStep_hit g0 dead kept b h Hit). simpl.
    repeat split; auto. apply lookup_Remove.
Qed.

End Bullets.

(** ** The enemy loop *)

Section Enemies.
Context `{R : Resolv}.


End Enemies.

(** ** Reachable states of scripted games *)

Section Runs.
Context `{R : Resolv}.

Lemma run_Reachable (inps : list Input) (g g' : Game) :
  Reachable g -> run g inps = Some g' -> Reachable g'.
Proof.
  revert g. induction inps as [| i inps IH]; intros g Hg; simpl.
  - intros [= <-]. exact Hg.
  - destruct (Update g i) as [g1 |] eqn:Hu; [| discriminate].
    apply IH. eapply reach_tick; eassumption.
Qed.

Lemma run_or_Reachable (inps : list Input) (g : Game) :
  Reachable g -> Reachable (run_or g inps).
Proof.
  intros Hg. unfold run_or. destruct (run g inps) as [g' |] eqn:Hr.
  - eapply run_Reachable; eassumption.
  - exact Hg.
Qed.

End Runs.

Section Concrete.
Local Existing Instance rect_resolv.

Lemma lastStand_Reachable : Reachable (run_or centreGame lastStand).
Proof.
  exact (run_or_Reachable lastStand centreGame
           (reach_new (fun _ => 0.5%float) (Some 100))).
Qed.

Lemma lastStand_ends :
  win (run_or centreGame lastStand) && over (run_or centreGame lastStand)
  = true.
Proof. vm_compute. reflexivity. Qed.

(** C8 fails as stated: the game [lastStand] ends, after 5260 ticks,
    in a state with [win] and [over] both set (all 132 enemies shot,
    the last one on the tick it took the last life). *)
Lemma win_and_over_together :
  Reachable (run_or centreGame lastStand)
  /\ win (run_or centreGame lastStand) = true
  /\ over (run_or centreGame lastStand) = true.
Proof.
  exact (conj lastStand_Reachable (andb_prop _ _ lastStand_ends)).
Qed.

(** The last tick of [lastStand] is such a tick. *)
Lemma both_flags_same_tick_witness :
  exists g0 inp,
    Reachable g0 /\ win g0 = false /\ over g0 = false
    /\ Update g0 inp = Some (run_or centreGame lastStand)
    /\ forall inp' g',
         Update (run_or centreGame lastStand) inp' = Some g' ->
         g' = run_or centreGame lastStand.
Proof.
  exact (both_flags_same_tick (run_or centreGame lastStand)
           lastStand_Reachable
           (proj1 (andb_prop _ _ lastStand_ends))
           (proj2 (andb_prop _ _ lastStand_ends))).
Defined.

(** The end state of [lastStand] under further keys. *)
Lemma terminal_state_frozen_witness :
  Update (run_or centreGame lastStand) pressFire
  = Some (run_or centreGame lastStand)
  /\ run (run_or centreGame lastStand) [pressFire; pressUp; noKeys]
     = Some (run_or centreGame lastStand).
Proof.
  exact (terminal_state_frozen (run_or centreGame lastStand) pressFire
           [pressFire; pressUp; noKeys]
           (orb_true_intro _ _
              (or_introl (proj1 (andb_prop _ _ lastStand_ends))))).
Defined.

(** *** A new game *)

Lemma centreGame_lives :
  Int64.min_int < lives centreGame <= Int64.max_int.
Proof. vm_compute. split; [reflexivity | discriminate]. Qed.

(** The first hit of a new game. *)
Lemma loseLife_spec_witness :
  lives (loseLife centreGame) = lives centreGame - 1
  /\ inv (loseLife centreGame) = iframeTicks /\ iframeTicks = 60
  /\ (over (loseLife centreGame) = true <-> lives (loseLife centreGame) < 0)
  /\ win (loseLife centreGame) = false
  /\ played (loseLife centreGame) = played centreGame ++ [sHit]
  /\ (px (loseLife centreGame), py (loseLife centreGame),
      playerSh (loseLife centreGame), bullets (loseLife centreGame),
      enemies (loseLife centreGame), space (loseLife centreGame),
      stars (loseLife centreGame), bgOff (loseLife centreGame),
      rng (loseLife centreGame))
     = (px centreGame, py centreGame, playerSh centreGame,
        bullets centreGame, enemies centreGame, space centreGame,
        stars centreGame, bgOff centreGame, rng centreGame)
  /\ (roundIdx (loseLife centreGame), roundSpawned (loseLife centreGame),
      roundKills (loseLife centreGame), totalKills (loseLife centreGame),
      cooldown (loseLife centreGame), spawnTimer (loseLife centreGame))
     = (roundIdx centreGame, roundSpawned centreGame, roundKills centreGame,
        totalKills centreGame, cooldown centreGame, spawnTimer centreGame).
Proof.
  exact (proj1 (proj2 (loseLife_spec centreGame centreGame_lives))
           eq_refl).
Defined.

(** A new game. *)
Lemma spawn_within_quota_witness :
  (exists q, rounds_at (roundIdx centreGame) = Some q
             /\ roundSpawned centreGame <= q)
  /\ (exists g', Update centreGame pressFire = Some g')
  /\ (forall g0 q, rounds_at (roundIdx g0) = Some q ->
        Int64.sub (spawnTimer g0) 1 <= 0 -> q <= roundSpawned g0 ->
        exists g1, spawnEnemies g0 = Some g1
          /\ enemies g1 = enemies g0 /\ space g1 = space g0
          /\ roundSpawned g1 = roundSpawned g0 /\ rng g1 = rng g0
          /\ spawnTimer g1 = spawnInterval (roundIdx g0)).
Proof.
  exact (spawn_within_quota centreGame pressFire
           (reach_new (fun _ => 0.5%float) (Some 100)) eq_refl eq_refl).
Defined.

(** *** The end of round 0 *)

Lemma firstRound_playing :
  win (run_or centreGame firstRound) || over (run_or centreGame firstRound)
  = false.
Proof. vm_compute. reflexivity. Qed.

Lemma firstRound_tick :
  playTick pressFire (run_or centreGame firstRound)
  = Some (tick_or pressFire (run_or centreGame firstRound)).
Proof. vm_compute. reflexivity. Qed.

Lemma firstRound_index :
  roundIdx (tick_or pressFire (run_or centreGame firstRound)) < len_rounds.
Proof. vm_compute. reflexivity. Qed.

Lemma firstRound_quota :
  rounds_at (roundIdx (tick_or pressFire (run_or centreGame firstRound)))
  = Some 6.
Proof. vm_compute. reflexivity. Qed.

Lemma firstRound_kills :
  6 <= roundKills (tick_or pressFire (run_or centreGame firstRound)).
Proof. vm_compute. discriminate. Qed.

(** The tick of [lastStand] on which the sixth enemy is shot. *)
Lemma round_advance_witness :
  (exists g', Update (run_or centreGame firstRound) pressFire = Some g'
     /\ roundIdx g' = roundIdx (run_or centreGame firstRound) + 1
     /\ roundKills g' = 0 /\ roundSpawned g' = 0
     /\ spawnTimer g' = spawnInterval (roundIdx g')
     /\ (win g' = true <-> len_rounds <= roundIdx g')
     /\ len_rounds = 6)
  /\ (forall g0 inps gn, run g0 inps = Some gn -> roundIdx g0 <= roundIdx gn).
Proof.
  exact (round_advance (run_or centreGame firstRound)
           (tick_or pressFire (run_or centreGame firstRound)) pressFire 6
           firstRound_playing firstRound_tick firstRound_index
           firstRound_quota firstRound_kills).
Defined.

(** *** The first enemy reaches the player *)

Lemma firstTouch_lives :
  Int64.min_int < lives (run_or centreGame firstTouch) <= Int64.max_int.
Proof. vm_compute. split; [reflexivity | discriminate]. Qed.

Lemma firstTouch_tick :
  Update (run_or centreGame firstTouch) noKeys
  = Some (run_or (run_or centreGame firstTouch) [noKeys]).
Proof. vm_compute. reflexivity. Qed.

(** The tick on which the first enemy reaches an idle player. *)
Lemma one_life_per_tick_witness :
  lives (run_or (run_or centreGame firstTouch) [noKeys])
  = lives (run_or centreGame firstTouch)
  \/ (lives (run_or (run_or centreGame firstTouch) [noKeys])
       = lives (run_or centreGame firstTouch) - 1
       /\ inv (run_or (run_or centreGame firstTouch) [noKeys]) = iframeTicks).
Proof.
  exact (proj1 (one_life_per_tick (run_or centreGame firstTouch)
                  (run_or (run_or centreGame firstTouch) [noKeys]) noKeys
                  firstTouch_lives firstTouch_tick)).
Defined.

(** *** A bullet at the top edge *)

Lemma topEdge_Reachable : Reachable (run_or leftGame topEdge).
Proof.
  exact (run_or_Reachable topEdge leftGame
           (reach_new (fun _ => 0%float) (Some 100))).
Qed.

Lemma topEdge_facts :
  bullets (run_or leftGame topEdge) = [topBullet]
  /\ (-20 + -6 + bulletSize <? 0)%float = false
  /\ (-20 + -6 + bulletSize)%float = 0%float
  /\ option_map bullets (Update (run_or leftGame topEdge) noKeys) = Some []
  /\ option_map (fun g' => lookup_shape (space g') 2)
       (Update (run_or leftGame topEdge) noKeys) = Some None
  /\ option_map killView (Update (run_or leftGame topEdge) noKeys)
     = Some (killView (run_or leftGame topEdge))
  /\ option_map played (Update (run_or leftGame topEdge) noKeys)
     = Some (played (run_or leftGame topEdge)).
Proof. vm_compute. repeat split; reflexivity. Qed.

(** C4 fails as stated: 94 ticks after a shot from the starting
    position the bullet is at y = -20; on the next tick it moves to
    y = -26, where y + bulletSize = 0 is not below 0, hits nothing (no
    kill is counted, no sound is played), and yet it is dropped from
    the slice and its shape from the space. *)
Lemma bullet_dropped_at_top_edge :
  Reachable (run_or leftGame topEdge)
  /\ bullets (run_or leftGame topEdge) = [topBullet]
  /\ (-20 + -6 + bulletSize <? 0)%float = false
  /\ (-20 + -6 + bulletSize)%float = 0%float
  /\ option_map bullets (Update (run_or leftGame topEdge) noKeys) = Some []
  /\ option_map (fun g' => lookup_shape (space g') 2)
       (Update (run_or leftGame topEdge) noKeys) = Some None
  /\ option_map killView (Update (run_or leftGame topEdge) noKeys)
     = Some (killView (run_or leftGame topEdge))
  /\ option_map played (Update (run_or leftGame topEdge) noKeys)
     = Some (played (run_or leftGame topEdge)).
Proof. exact (conj topEdge_Reachable topEdge_facts). Qed.

Lemma topEdge_miss :
  IntersectionTest
    (SetPosition (space (run_or leftGame topEdge)) (b_sh topBullet)
       (b_x topBullet) (b_y topBullet + b_vy topBullet)%float)
    (b_sh topBullet) tagEnemy = None.
Proof. vm_compute. reflexivity. Qed.

(** The step of the bullet loop on [topBullet]. *)
Lemma bullet_without_hit_witness :
  let b' := {| b_x := b_x topBullet;
               b_y := (b_y topBullet + b_vy topBullet)%float;
               b_vy := b_vy topBullet; b_sh := b_sh topBullet |} in
  let '(g', dead', kept') :=
    bulletStep (run_or leftGame topEdge, ∅, []) topBullet in
  ((0 <? b_y b' + bulletSize)%float = true ->
     kept' = [] ++ [b']
     /\ lookup_shape (space g') (b_sh topBullet)
        = lookup_shape
            (SetPosition (space (run_or leftGame topEdge)) (b_sh topBullet)
               (b_x topBullet) (b_y b')) (b_sh topBullet))
  /\ ((0 <? b_y b' + bulletSize)%float = false ->
        kept' = [] /\ lookup_shape (space g') (b_sh topBullet) = None)
  /\ dead' = ∅ /\ played g' = played (run_or leftGame topEdge)
  /\ killView g' = killView (run_or leftGame topEdge).
Proof.
  generalize topEdge_miss. generalize (run_or leftGame topEdge).
  intros g Hmiss. exact (bullet_without_hit g ∅ [] topBullet Hmiss).
Defined.

(** *** Two bullets, one enemy *)

Lemma climb_Reachable : Reachable (run_or centreGame climbAndShoot).
Proof.
  exact (run_or_Reachable climbAndShoot centreGame
           (reach_new (fun _ => 0.5%float) (Some 100))).
Qed.



End Concrete.

(** * Further properties of the code *)

(** ** The fire delay *)

Lemma quot2_range (r : Z) :
  Int64.in_range r -> - 2 ^ 62 <= Z.quot r 2 <= 2 ^ 62.
Proof.
  unfold Int64.in_range, Int64.min_int, Int64.max_int. intros Hr.
  pose proof (Z.quot_le_mono (- 2 ^ 63) r 2 ltac:(lia) ltac:(lia)) as A.
  pose proof (Z.quot_le_mono r (2 ^ 63) 2 ltac:(lia) ltac:(lia)) as B.
  change (Z.quot (- 2 ^ 63) 2) with (- 2 ^ 62) in A.
  change (Z.quot (2 ^ 63) 2) with (2 ^ 62) in B. lia.
Qed.

Lemma fireDelay_eq (r : Z) :
  Int64.in_range r -> fireDelay r = Z.max 8 (10 - Z.quot r 2).
Proof.
  intros Hr. pose proof (quot2_range r Hr) as Hq.
  unfold fireDelay, Int64.sub, Int64.div. cbv zeta.
  rewrite (wrap_small (Z.quot r 2))
    by (unfold Int64.in_range, Int64.min_int, Int64.max_int; lia).
  rewrite wrap_small
    by (unfold Int64.in_range, Int64.min_int, Int64.max_int; lia).
  destruct (Z.ltb_spec (10 - Z.quot r 2) 8); lia.
Qed.

Lemma fireDelay_bounds (r : Z) :
  0 <= r <= Int64.max_int -> 8 <= fireDelay r <= 10.
Proof.
  intros Hr. rewrite fireDelay_eq
    by (unfold Int64.in_range, Int64.min_int, Int64.max_int in *; lia).
  pose proof (Z.quot_pos r 2 ltac:(lia) ltac:(lia)). lia.
Qed.

(** X1.  For every 64-bit round index the delay between two shots is
    [max 8 (10 - r/2)] with Go's truncating division, without any
    wrap-around: it is never below 8, it is at most 10 from round 0 on,
    it is 8 from round 4 on, and it never grows with the round. *)
Theorem fireDelay_spec (r : Z) :
  Int64.in_range r ->
  fireDelay r = Z.max 8 (10 - Z.quot r 2)
  /\ 8 <= fireDelay r
  /\ (0 <= r -> fireDelay r <= 10)
  /\ (4 <= r -> fireDelay r = 8)
  /\ (forall r', Int64.in_range r' -> r <= r' -> fireDelay r' <= fireDelay r).
Proof.
  intros Hr. pose proof (fireDelay_eq r Hr) as E.
  split; [exact E |]. split; [lia |]. split; [| split].
  - intros H0. pose proof (Z.quot_pos r 2 ltac:(lia) ltac:(lia)). lia.
  - intros H4.
    pose proof (Z.quot_le_mono 4 r 2 ltac:(lia) H4) as A.
    change (Z.quot 4 2) with 2 in A. lia.
  - intros r' Hr' Hle. rewrite (fireDelay_eq r' Hr'), E.
    pose proof (Z.quot_le_mono r r' 2 ltac:(lia) Hle). lia.
Qed.

Lemma fireDelay_spec_witness :
  Int64.in_range 3 /\ fireDelay 3 = Z.max 8 (10 - Z.quot 3 2).
Proof.
  assert (H : Int64.in_range 3)
    by (unfold Int64.in_range, Int64.min_int, Int64.max_int; lia).
  exact (conj H (proj1 (fireDelay_spec 3 H))).
Defined.

(** ** The shape of a tick *)

Section Loops.
Context `{R : Resolv}.

(** What holds before the bullet loop and is kept by each assignment of
    its body holds after it. *)
Lemma moveBullets_keeps (P : Game -> Prop) :
  (forall sp g, P g -> P (set_space sp g)) ->
  (forall v g, P g -> P (set_roundKills v g)) ->
  (forall v g, P g -> P (set_totalKills v g)) ->
  (forall g, P g -> P (play sHit g)) ->
  (forall k g, P g -> P (set_bullets k g)) ->
  forall g, P g -> P (fst (moveBullets g)).
Proof.
  intros Hsp Hrk Htk Hpl Hb g Hg. unfold moveBullets.
  assert (H : P (fst (fst (fold_left bulletStep (bullets g) (g, ∅, []))))).
  { apply (fold_left_keeps bulletStep (fun acc => P (fst (fst acc))));
      [| exact Hg].
    intros [[a dead] kept] b Ha. unfold bulletStep. cbv zeta.
    cbn [fst] in Ha.
    destruct (IntersectionTest _ _ _); cbn [fst].
    - auto 8.
    - destruct (0 <? _)%float; cbn [fst]; auto. }
  destruct (fold_left bulletStep (bullets g) (g, ∅, [])) as [[g' d] k].
  cbn [fst] in *. auto.
Qed.

(** The same for the enemy loop, whose body assigns the space and calls
    [loseLife]. *)
Lemma moveEnemies_keeps (P : Game -> Prop) :
  (forall sp g, P g -> P (set_space sp g)) ->
  (forall g, P g -> P (loseLife g)) ->
  (forall k g, P g -> P (set_enemies k g)) ->
  forall dead g, P g -> P (moveEnemies dead g).
Proof.
  intros Hsp Hll He dead g Hg. unfold moveEnemies.
  assert (H : P (fst (fold_left (enemyStep dead) (enemies g) (g, [])))).
  { apply (fold_left_keeps (enemyStep dead) (fun acc => P (fst acc)));
      [| exact Hg].
    intros [a kept] e Ha. unfold enemyStep. cbv zeta. cbn [fst] in Ha.
    match goal with
    | |- context [reapEnemy dead ?g1 ?e1] =>
        assert (H1 : P g1);
        [| assert (H2 : P (fst (reapEnemy dead g1 e1)));
           [| destruct (reapEnemy dead g1 e1) as [g2 [e2 |]]; exact H2]]
    end.
    - unfold touchPlayer.
      destruct (inv _ =? 0); [| auto].
      destruct (IntersectionTest _ _ _); auto.
    - unfold reapEnemy.
      destruct (bool_decide _); cbn [fst]; [auto |].
      destruct (screenH <? _)%float; cbn [fst]; auto. }
  destruct (fold_left (enemyStep dead) (enemies g) (g, [])) as [g' k].
  cbn [fst] in *. auto.
Qed.

(** A tick of a game in play is the four first blocks, the spawns, the
    two loops and the round test. *)
Lemma Update_playing (g g' : Game) (inp : Input) :
  win g || over g = false ->
  Update g inp = Some g' ->
  exists gs, spawnEnemies (prelude inp g) = Some gs
    /\ advanceRound (moveEnemies (snd (moveBullets gs)) (fst (moveBullets gs)))
       = Some g'.
Proof.
  intros Hp. unfold Update, playTick, prelude. rewrite Hp. cbv zeta.
  destruct (spawnEnemies _) as [gs |]; [| discriminate].
  intros H. exists gs. split; [reflexivity |].
  destruct (moveBullets gs) as [gb dead]. exact H.
Qed.

Lemma loseLife_lateView (g : Game) : lateView (loseLife g) = lateView g.
Proof. frame. Qed.

Lemma moveBullets_lateView (g : Game) :
  lateView (fst (moveBullets g)) = lateView g.
Proof.
  apply (moveBullets_keeps (fun x => lateView x = lateView g)); auto.
Qed.

Lemma moveEnemies_lateView (dead : gset positive) (g : Game) :
  lateView (moveEnemies dead g) = lateView g.
Proof.
  apply (moveEnemies_keeps (fun x => lateView x = lateView g)); auto.
  intros x Hx. now rewrite loseLife_lateView.
Qed.

End Loops.

Lemma spawnEnemies_lateView (g g' : Game) :
  spawnEnemies g = Some g' -> lateView g' = lateView g.
Proof.
  unfold spawnEnemies. cbv zeta. simpl.
  destruct (_ && _); [| intros [= <-]; reflexivity].
  destruct (rounds_at (roundIdx g)) as [q |]; [| discriminate].
  destruct (roundSpawned g <? q); intros [= <-]; reflexivity.
Qed.

Lemma advanceRound_lateView (g g' : Game) :
  advanceRound g = Some g' -> lateView g' = lateView g.
Proof.
  unfold advanceRound.
  destruct (roundIdx g <? len_rounds); [| intros [= <-]; reflexivity].
  destruct (rounds_at (roundIdx g)) as [q |]; [| discriminate].
  destruct (q <=? roundKills g); [| intros [= <-]; reflexivity].
  cbv zeta. destruct (len_rounds <=? _); intros [= <-]; reflexivity.
Qed.

(** After the shooting block nothing in the tick touches the player's
    position, the cooldown or the background. *)
Lemma Update_lateView `{R : Resolv} (g g' : Game) (inp : Input) :
  win g || over g = false ->
  Update g inp = Some g' -> lateView g' = lateView (prelude inp g).
Proof.
  intros Hp Hu. destruct (Update_playing g g' inp Hp Hu) as (gs & Hs & Ha).
  rewrite (advanceRound_lateView _ _ Ha), moveEnemies_lateView,
    moveBullets_lateView. exact (spawnEnemies_lateView _ _ Hs).
Qed.

(** ** Countdowns, round index and end flags *)

Lemma roundView_eq (g g' : Game) :
  roundView g' = roundView g ->
  roundIdx g' = roundIdx g /\ roundSpawned g' = roundSpawned g
  /\ win g' = win g /\ spawnTimer g' = spawnTimer g.
Proof. unfold roundView. intros [= -> -> -> ->]. auto. Qed.

Lemma lifeView_eq (g g' : Game) :
  lifeView g' = lifeView g ->
  lives g' = lives g /\ inv g' = inv g /\ over g' = over g.
Proof. unfold lifeView. intros [= -> -> ->]. auto. Qed.

Lemma sceneView_eq (g g' : Game) :
  sceneView g' = sceneView g ->
  px g' = px g /\ py g' = py g /\ playerSh g' = playerSh g
  /\ bullets g' = bullets g /\ enemies g' = enemies g
  /\ space g' = space g.
Proof. unfold sceneView. intros [= -> -> -> -> -> ->]. auto 7. Qed.

Lemma loseLife_scene (g : Game) : sceneView (loseLife g) = sceneView g.
Proof. frame. Qed.

Lemma lateView_eq (g g' : Game) :
  lateView g' = lateView g ->
  px g' = px g /\ py g' = py g /\ playerSh g' = playerSh g
  /\ cooldown g' = cooldown g /\ stars g' = stars g
  /\ bgImg g' = bgImg g /\ bgOff g' = bgOff g.
Proof. unfold lateView. intros [= -> -> -> -> -> -> ->]. auto 8. Qed.

Lemma scrollBackground_early (g : Game) :
  cooldown (scrollBackground g) = cooldown g
  /\ played (scrollBackground g) = played g
  /\ bgImg (scrollBackground g) = bgImg g.
Proof. frame. Qed.

Lemma movePlayer_early (inp : Input) (g : Game) :
  cooldown (movePlayer inp g) = cooldown g
  /\ played (movePlayer inp g) = played g
  /\ bgImg (movePlayer inp g) = bgImg g
  /\ stars (movePlayer inp g) = stars g.
Proof. unfold movePlayer. cbv zeta. simpl. auto. Qed.

Lemma tickInv_early (g : Game) :
  cooldown (tickInv g) = cooldown g
  /\ played (tickInv g) = played g
  /\ bgImg (tickInv g) = bgImg g
  /\ stars (tickInv g) = stars g
  /\ px (tickInv g) = px g /\ py (tickInv g) = py g.
Proof. frame. Qed.

Lemma shoot_cooldown (inp : Input) (g : Game) :
  cooldown (shoot inp g)
  = (if fires inp g then fireDelay (roundIdx g) else cooled g)
  /\ played (shoot inp g)
     = (if fires inp g then played g ++ [sShoot] else played g)
  /\ bgImg (shoot inp g) = bgImg g
  /\ stars (shoot inp g) = stars g
  /\ px (shoot inp g) = px g /\ py (shoot inp g) = py g.
Proof.
  unfold shoot, fires, cooled. cbv zeta.
  destruct (0 <? cooldown g); simpl;
    destruct (keyFire inp && _); simpl; auto 7.
Qed.

Lemma prelude_cooldown (inp : Input) (g : Game) :
  cooldown (prelude inp g)
  = (if fires inp g then fireDelay (roundIdx g) else cooled g)
  /\ played (prelude inp g)
     = (if fires inp g then played g ++ [sShoot] else played g).
Proof.
  unfold prelude.
  destruct (scrollBackground_logic g) as ((A & _) & _).
  destruct (scrollBackground_early g) as (A1 & A2 & _).
  destruct (movePlayer_logic inp (scrollBackground g)) as ((B & _) & _).
  destruct (movePlayer_early inp (scrollBackground g)) as (B1 & B2 & _).
  destruct (tickInv_logic (movePlayer inp (scrollBackground g)))
    as ((C & _) & _).
  destruct (tickInv_early (movePlayer inp (scrollBackground g)))
    as (C1 & C2 & _).
  destruct (shoot_cooldown inp (tickInv (movePlayer inp (scrollBackground g))))
    as (D1 & D2 & _).
  apply roundView_eq in A as (A & _), B as (B & _), C as (C & _).
  rewrite D1, D2. unfold fires, cooled.
  rewrite C, B, A, C1, B1, A1, C2, B2, A2. auto.
Qed.

Lemma spawnEnemies_timer (g g' : Game) :
  spawnEnemies g = Some g' ->
  spawnTimer g'
  = (if (Int64.sub (spawnTimer g) 1 <=? 0) && (roundIdx g <? len_rounds)
     then spawnInterval (roundIdx g) else Int64.sub (spawnTimer g) 1).
Proof.
  unfold spawnEnemies. cbv zeta. simpl.
  destruct (_ && _); [| intros [= <-]; reflexivity].
  destruct (rounds_at (roundIdx g)) as [q |]; [| discriminate].
  destruct (roundSpawned g <? q); intros [= <-]; reflexivity.
Qed.

Lemma loseLife_inv_range (g : Game) :
  0 <= inv g <= iframeTicks -> 0 <= inv (loseLife g) <= iframeTicks.
Proof.
  unfold loseLife. destruct (_ || _); [auto |]. cbv zeta.
  destruct (lives _ <? 0); simpl; unfold iframeTicks; lia.
Qed.

Lemma loseLife_over (g : Game) :
  lives_ok g /\ (over g = true <-> lives g = -1) ->
  lives_ok (loseLife g)
  /\ (over (loseLife g) = true <-> lives (loseLife g) = -1).
Proof.
  intros (Hl & Ho). split; [now apply loseLife_lives_ok |].
  destruct ((0 <? inv g) || win g || over g) eqn:E.
  - now rewrite loseLife_blocked.
  - rewrite loseLife_open by assumption. cbv zeta.
    apply orb_false_elim in E as (_ & E).
    destruct Hl as (Hl & Hl'). specialize (Hl' E).
    unfold startLives in Hl. simpl. unfold Int64.sub.
    rewrite wrap_small
      by (unfold Int64.in_range, Int64.min_int, Int64.max_int; lia).
    destruct (Z.ltb_spec (lives g - 1) 0); simpl.
    + split; [lia | reflexivity].
    + rewrite E. split; [discriminate | lia].
Qed.

Section Flags.
Context `{R : Resolv}.

Lemma Update_flags_ok (g g' : Game) (inp : Input) :
  flags_ok g -> lives_ok g -> Update g inp = Some g' -> flags_ok g'.
Proof.
  intros (Hr & Hw & Ho) Hl Hu.
  destruct (win g || over g) eqn:Hp.
  { rewrite Update_frozen in Hu by assumption. injection Hu as <-.
    repeat split; tauto. }
  unfold Update in Hu. rewrite Hp in Hu.
  destruct (playTick inp g) as [g1 |] eqn:Ht; [| discriminate].
  destruct (playTick_round inp g g1 Ht) as (T1 & T2 & _).
  destruct (playTick_lives inp g g1 Ht) as (gb & dead & -> & L1 & _ & L3).
  assert (Hov : lives_ok (moveEnemies dead gb)
                /\ (over (moveEnemies dead gb) = true
                    <-> lives (moveEnemies dead gb) = -1)).
  { apply (moveEnemies_keeps
             (fun x => lives_ok x /\ (over x = true <-> lives x = -1)));
      auto using loseLife_over.
    unfold lives_ok. rewrite L1, L3. auto. }
  destruct Hov as (_ & Hov).
  apply advanceRound_Some in Hu
    as [-> | (q & Q1 & _ & Q2 & _ & _ & _ & Q3 & Q4)].
  - unfold flags_ok. rewrite T1, T2. auto.
  - apply rounds_at_Some in Q1 as (Q1 & _).
    apply lifeView_eq in Q4 as (Q4 & _ & Q5).
    unfold flags_ok. rewrite Q3, Q2, Q4, Q5, T1, T2.
    change len_rounds with 6 in *.
    split; [lia |]. split; [| exact Hov].
    destruct (Z.leb_spec 6 (roundIdx g + 1)).
    + split; [lia | reflexivity].
    + split; [| lia]. intros W. apply Hw in W. lia.
Qed.

Lemma newGame_flags_ok (source : nat -> float) (img : option Z) :
  flags_ok (newGame source img).
Proof.
  unfold newGame. cbv zeta.
  destruct (AddRectangle _ _ _ _ _ _) as [psh sp].
  destruct (newStars _ _) as [sts r]. unfold flags_ok. simpl.
  unfold len_rounds, startLives. simpl.
  repeat split; (lia || discriminate).
Qed.

Lemma Reachable_flags_ok (g : Game) : Reachable g -> flags_ok g.
Proof.
  intros H. induction H as [source img | g inp g' Hg IH Hu].
  - apply newGame_flags_ok.
  - exact (Update_flags_ok g g' inp IH (Reachable_lives_ok g Hg) Hu).
Qed.

(** X3.  In every state a game reaches the round index is between 0 and
    6, [win] is set exactly when it is 6 (all six rounds cleared) and
    [over] exactly when the lives are at -1; so a game in play has a
    round index that [rounds] can be read at, and 0 to 2 lives. *)
Theorem flags_sound (g : Game) :
  Reachable g ->
  0 <= roundIdx g <= 6
  /\ (win g = true <-> roundIdx g = 6)
  /\ (over g = true <-> lives g = -1)
  /\ (win g = false ->
      exists q, rounds_at (roundIdx g) = Some q /\ 6 <= q <= 42)
  /\ (over g = false -> 0 <= lives g <= 2).
Proof.
  intros H. destruct (Reachable_flags_ok g H) as (Hr & Hw & Ho).
  destruct (Reachable_lives_ok g H) as (Hl & Hl').
  change len_rounds with 6 in *. unfold startLives in Hl.
  repeat (split; [assumption |]). split.
  - intros W.
    destruct (rounds_at_in_bounds (roundIdx g)) as (q & Hq).
    { change len_rounds with 6.
      assert (roundIdx g <> 6) by (intros E; apply Hw in E; congruence).
      lia. }
    exists q. split; [exact Hq |]. now apply rounds_at_Some in Hq.
  - intros O. specialize (Hl' O). lia.
Qed.

Lemma Update_timers_ok (g g' : Game) (inp : Input) :
  flags_ok g -> timers_ok g -> Update g inp = Some g' -> timers_ok g'.
Proof.
  intros (Hr & Hw & _) (Hc & Hi & Hs) Hu.
  destruct (win g || over g) eqn:Hp.
  { rewrite Update_frozen in Hu by assumption. injection Hu as <-.
    repeat split; tauto. }
  change len_rounds with 6 in *.
  unfold iframeTicks, baseSpawnInterval in *.
  assert (Hidx : 0 <= roundIdx g < 6).
  { apply orb_false_elim in Hp as (W & _).
    assert (roundIdx g <> 6) by (intros E; apply Hw in E; congruence).
    lia. }
  pose proof (Update_lateView g g' inp Hp Hu) as Hlate.
  destruct (Update_playing g g' inp Hp Hu) as (gs & Hsp & Ha).
  destruct (prelude_logic inp g) as ((P1 & _) & P2).
  fold (prelude inp g) in P1, P2.
  apply roundView_eq in P1 as (P1 & _ & _ & P4).
  pose proof (spawnEnemies_timer _ _ Hsp) as St.
  apply spawnEnemies_views in Hsp as (_ & S1 & S2 & _).
  destruct (moveBullets_views gs) as (B1 & B2 & _).
  set (gb := fst (moveBullets gs)) in *.
  set (dead := snd (moveBullets gs)) in *.
  destruct (moveEnemies_views dead gb) as (E1 & _).
  apply lifeView_eq in S1 as (_ & S1 & _), B2 as (_ & B2 & _).
  apply roundView_eq in B1 as (B1 & _ & _ & B4), E1 as (E1 & _ & _ & E4).
  assert (Hinv : 0 <= inv (moveEnemies dead gb) <= 60).
  { apply (moveEnemies_keeps (fun x => 0 <= inv x <= 60)); auto.
    - exact loseLife_inv_range.
    - rewrite B2, S1, P2.
      destruct (Z.ltb_spec 0 (inv g)); [| lia].
      unfold Int64.sub. rewrite wrap_small
        by (unfold Int64.in_range, Int64.min_int, Int64.max_int; lia).
      lia. }
  assert (Hst : 1 <= spawnTimer (moveEnemies dead gb) <= 32).
  { rewrite E4, B4, St, P1, P4. change len_rounds with 6.
    unfold Int64.sub. rewrite wrap_small
      by (unfold Int64.in_range, Int64.min_int, Int64.max_int; lia).
    destruct (Z.leb_spec (spawnTimer g - 1) 0); simpl.
    - destruct (Z.ltb_spec (roundIdx g) 6); [| lia].
      rewrite spawnInterval_small by lia.
      unfold minSpawnInterval, baseSpawnInterval. lia.
    - lia. }
  assert (Hcd : 0 <= cooldown g' <= 10).
  { apply lateView_eq in Hlate as (_ & _ & _ & -> & _).
    destruct (prelude_cooldown inp g) as (-> & _).
    destruct (fires inp g).
    - pose proof (fireDelay_bounds (roundIdx g)
                    ltac:(unfold Int64.max_int; lia)). lia.
    - unfold cooled. destruct (Z.ltb_spec 0 (cooldown g)); [| lia].
      unfold Int64.sub. rewrite wrap_small
        by (unfold Int64.in_range, Int64.min_int, Int64.max_int; lia).
      lia. }
  apply advanceRound_Some in Ha
    as [-> | (q & Q1 & _ & Q2 & _ & _ & Q3 & _ & Q4)].
  - unfold timers_ok, iframeTicks, baseSpawnInterval. lia.
  - apply lifeView_eq in Q4 as (_ & Q4 & _).
    unfold timers_ok, iframeTicks, baseSpawnInterval.
    rewrite Q4, Q3, Q2, E1, B1, S2, P1.
    rewrite spawnInterval_small by lia.
    unfold minSpawnInterval, baseSpawnInterval. lia.
Qed.

Lemma newGame_timers_ok (source : nat -> float) (img : option Z) :
  timers_ok (newGame source img).
Proof.
  unfold newGame. cbv zeta.
  destruct (AddRectangle _ _ _ _ _ _) as [psh sp].
  destruct (newStars _ _) as [sts r]. unfold timers_ok. simpl.
  unfold iframeTicks, baseSpawnInterval.
  change (spawnInterval 0) with 32. lia.
Qed.

Lemma Reachable_timers_ok (g : Game) : Reachable g -> timers_ok g.
Proof.
  intros H. induction H as [source img | g inp g' Hg IH Hu].
  - apply newGame_timers_ok.
  - exact (Update_timers_ok g g' inp (Reachable_flags_ok g Hg) IH Hu).
Qed.

(** X2.  In every state a game reaches the three countdowns are in
    their ranges: the fire cooldown between 0 and 10, the
    invulnerability window between 0 and 60 and the spawn timer between
    1 and 32; none of them ever wraps around. *)
Theorem timers_in_range (g : Game) :
  Reachable g ->
  0 <= cooldown g <= 10 /\ 0 <= inv g <= 60 /\ 1 <= spawnTimer g <= 32.
Proof.
  intros H. exact (Reachable_timers_ok g H).
Qed.

End Flags.

(** ** The text [Draw] writes *)

(** X9.  In every state a game reaches, the end of [Draw] finds what it
    needs: [rounds[g.roundIdx]] is read only in a game in play, where
    the index is in bounds.  The win panel has priority over the
    game-over panel; the HUD shows a round from 1 to 6 with its quota,
    0 to 2 lives and a fire delay from 8 to 10. *)
Theorem DrawOverlay_total `{R : Resolv} (g : Game) :
  Reachable g ->
  exists o, DrawOverlay g = Some o
    /\ match o with
       | youWin => win g = true
       | gameOver => win g = false /\ over g = true
       | hud r k q l d s =>
           win g = false /\ over g = false
           /\ r = roundIdx g + 1 /\ 1 <= r <= 6
           /\ rounds_at (roundIdx g) = Some q /\ k = roundKills g
           /\ l = lives g /\ 0 <= l <= 2
           /\ d = fireDelay (roundIdx g) /\ 8 <= d <= 10
       end.
Proof.
  intros H. destruct (Reachable_flags_ok g H) as (Hr & Hw & Ho).
  destruct (Reachable_lives_ok g H) as (Hl & Hl').
  change len_rounds with 6 in *. unfold startLives in Hl.
  unfold DrawOverlay.
  destruct (win g) eqn:W; [exists youWin; auto |].
  destruct (over g) eqn:O; [exists gameOver; auto |].
  assert (Hidx : 0 <= roundIdx g < 6).
  { assert (roundIdx g <> 6) by (intros E; apply Hw in E; congruence).
    lia. }
  destruct (rounds_at_in_bounds (roundIdx g) Hidx) as (q & Hq).
  rewrite Hq. eexists. split; [reflexivity |]. cbv beta iota.
  specialize (Hl' eq_refl).
  pose proof (fireDelay_bounds (roundIdx g)
                ltac:(unfold Int64.max_int; lia)).
  assert (Ha : Int64.add (roundIdx g) 1 = roundIdx g + 1).
  { unfold Int64.add. apply wrap_small.
    unfold Int64.in_range, Int64.min_int, Int64.max_int. lia. }
  rewrite Ha. repeat split; (reflexivity || lia).
Qed.

(** ** The player stays on the screen *)

Lemma movePlayer_axis (inp : Input) (g : Game) :
  px (movePlayer inp g) = axis (keyLeft inp) (keyRight inp) 445 (px g)
  /\ py (movePlayer inp g) = axis (keyUp inp) (keyDown inp) 605 (py g).
Proof. split; reflexivity. Qed.

Lemma among_In (l : list float) (x : float) : among l x = true <-> In x l.
Proof.
  unfold among. rewrite existsb_exists. split.
  - intros (y & Hy & E). apply Leibniz.eqb_spec in E. now subst.
  - intros H. exists x. split; [exact H |]. now apply Leibniz.eqb_spec.
Qed.

Lemma columns_closed :
  forallb (fun x =>
             forallb (fun d =>
                        forallb (fun i => among columns (axis d i 445 x))
                          [false; true]) [false; true]) columns = true.
Proof. vm_compute. reflexivity. Qed.

Lemma rows_closed :
  forallb (fun y =>
             forallb (fun d =>
                        forallb (fun i => among rows (axis d i 605 y))
                          [false; true]) [false; true]) rows = true.
Proof. vm_compute. reflexivity. Qed.

Lemma columns_bounds :
  forallb (fun x => (0 <=? x) && (x <=? 445))%float columns = true.
Proof. vm_compute. reflexivity. Qed.

Lemma rows_bounds :
  forallb (fun y => (0 <=? y) && (y <=? 605))%float rows = true.
Proof. vm_compute. reflexivity. Qed.

Lemma axis_closed (l : list float) (hi : float) :
  forallb (fun x =>
             forallb (fun d =>
                        forallb (fun i => among l (axis d i hi x))
                          [false; true]) [false; true]) l = true ->
  forall d i x, among l x = true -> among l (axis d i hi x) = true.
Proof.
  intros H d i x Hx. apply among_In in Hx.
  rewrite forallb_forall in H. specialize (H x Hx).
  rewrite forallb_forall in H. specialize (H d).
  rewrite forallb_forall in H. apply (H ltac:(destruct d; simpl; auto)).
  destruct i; simpl; auto.
Qed.

Lemma movePlayer_on_screen (inp : Input) (g : Game) :
  on_screen g -> on_screen (movePlayer inp g).
Proof.
  intros (Hx & Hy). unfold on_screen.
  destruct (movePlayer_axis inp g) as (-> & ->).
  split; [exact (axis_closed columns 445 columns_closed _ _ _ Hx)
         | exact (axis_closed rows 605 rows_closed _ _ _ Hy)].
Qed.

Lemma scrollBackground_pos (g : Game) :
  px (scrollBackground g) = px g /\ py (scrollBackground g) = py g.
Proof. frame. Qed.

Lemma prelude_pos (inp : Input) (g : Game) :
  px (prelude inp g) = px (movePlayer inp (scrollBackground g))
  /\ py (prelude inp g) = py (movePlayer inp (scrollBackground g)).
Proof.
  unfold prelude.
  destruct (shoot_cooldown inp (tickInv (movePlayer inp (scrollBackground g))))
    as (_ & _ & _ & _ & -> & ->).
  destruct (tickInv_early (movePlayer inp (scrollBackground g)))
    as (_ & _ & _ & _ & -> & ->). auto.
Qed.

Lemma newGame_on_screen (source : nat -> float) (img : option Z) :
  on_screen (newGame source img).
Proof.
  unfold newGame. cbv zeta.
  destruct (AddRectangle _ _ _ _ _ _) as [psh sp].
  destruct (newStars _ _) as [sts r]. unfold on_screen. simpl.
  split; vm_compute; reflexivity.
Qed.

Lemma Reachable_on_screen `{R : Resolv} (g : Game) :
  Reachable g -> on_screen g.
Proof.
  intros H. induction H as [source img | g inp g' Hg IH Hu].
  - apply newGame_on_screen.
  - destruct (win g || over g) eqn:Hp.
    + rewrite Update_frozen in Hu by assumption. now injection Hu as <-.
    + apply Update_lateView in Hu; [| exact Hp].
      apply lateView_eq in Hu as (Hx & Hy & _).
      unfold on_screen. rewrite Hx, Hy.
      destruct (prelude_pos inp g) as (-> & ->).
      apply movePlayer_on_screen. unfold on_screen.
      destruct (scrollBackground_pos g) as (-> & ->). exact IH.
Qed.

(** X4.  In every state a game reaches the player is on the screen:
    [0 <= px <= 445] and [0 <= py <= 605] (the screen less the size of
    the player), whatever keys were held; the coordinates are numbers,
    x a multiple of 0.5 and y whole. *)
Theorem player_on_screen `{R : Resolv} (g : Game) :
  Reachable g ->
  ((0 <=? px g) && (px g <=? 445) = true)%float
  /\ ((0 <=? py g) && (py g <=? 605) = true)%float
  /\ In (px g) columns /\ In (py g) rows.
Proof.
  intros H. destruct (Reachable_on_screen g H) as (Hx & Hy).
  apply among_In in Hx, Hy.
  pose proof columns_bounds as Bx. pose proof rows_bounds as By.
  rewrite forallb_forall in Bx, By.
  exact (conj (Bx _ Hx) (conj (By _ Hy) (conj Hx Hy))).
Qed.

(** ** Shots and the cooldown *)

Lemma fireDelay_floor (r : Z) : 8 <= fireDelay r.
Proof.
  unfold fireDelay. cbv zeta.
  destruct (Z.ltb_spec (Int64.sub 10 (Int64.div r 2)) 8); lia.
Qed.

Lemma play_sHit_shots (g : Game) : shotsFired (play sHit g) = shotsFired g.
Proof.
  unfold shotsFired, play. simpl. rewrite List.filter_app. simpl.
  now rewrite app_nil_r.
Qed.

Lemma loseLife_shots (g : Game) : shotsFired (loseLife g) = shotsFired g.
Proof.
  unfold loseLife. destruct (_ || _); [reflexivity |]. cbv zeta.
  destruct (lives _ <? 0);
    [change (shotsFired (set_over true ?x)) with (shotsFired x) |];
    rewrite play_sHit_shots; reflexivity.
Qed.

Lemma spawnEnemies_entities (g g' : Game) :
  spawnEnemies g = Some g' ->
  bullets g' = bullets g /\ played g' = played g
  /\ (enemies g' = enemies g \/ exists e, enemies g' = enemies g ++ [e]).
Proof.
  unfold spawnEnemies. cbv zeta. simpl.
  destruct (_ && _); [| intros [= <-]; simpl; auto].
  destruct (rounds_at (roundIdx g)) as [q |]; [| discriminate].
  destruct (roundSpawned g <? q); intros [= <-]; simpl; [| auto].
  unfold spawnEnemy, AddRectangle, Float64. simpl. eauto.
Qed.

Lemma advanceRound_entities (g g' : Game) :
  advanceRound g = Some g' ->
  bullets g' = bullets g /\ enemies g' = enemies g
  /\ played g' = played g /\ space g' = space g.
Proof.
  unfold advanceRound.
  destruct (roundIdx g <? len_rounds); [| intros [= <-]; auto].
  destruct (rounds_at (roundIdx g)) as [q |]; [| discriminate].
  destruct (q <=? roundKills g); [| intros [= <-]; auto].
  cbv zeta. destruct (len_rounds <=? _); intros [= <-]; auto.
Qed.

Section Shots.
Context `{R : Resolv}.

(** What a tick of a game in play does to the shot count and to the
    cooldown. *)
Lemma Update_shots (g g' : Game) (inp : Input) :
  win g || over g = false ->
  Update g inp = Some g' ->
  shotsFired g' = (if fires inp g then S (shotsFired g) else shotsFired g)
  /\ cooldown g' = (if fires inp g then fireDelay (roundIdx g) else cooled g).
Proof.
  intros Hp Hu. pose proof (Update_lateView g g' inp Hp Hu) as Hlate.
  apply lateView_eq in Hlate as (_ & _ & _ & Hc & _).
  destruct (Update_playing g g' inp Hp Hu) as (gs & Hs & Ha).
  destruct (prelude_cooldown inp g) as (P1 & P2).
  split; [| now rewrite Hc].
  apply advanceRound_entities in Ha as (_ & _ & Ha & _).
  apply spawnEnemies_entities in Hs as (_ & Hs & _).
  unfold shotsFired at 1. rewrite Ha. fold (shotsFired (moveEnemies
    (snd (moveBullets gs)) (fst (moveBullets gs)))).
  rewrite (moveEnemies_keeps
             (fun x => shotsFired x = shotsFired (fst (moveBullets gs))));
    auto; [| intros x Hx; now rewrite loseLife_shots].
  rewrite (moveBullets_keeps (fun x => shotsFired x = shotsFired gs)); auto;
    [| intros x Hx; now rewrite play_sHit_shots].
  unfold shotsFired. rewrite Hs, P2.
  destruct (fires inp g); [| reflexivity].
  rewrite List.filter_app, length_app. simpl. lia.
Qed.

(** While the cooldown is above the number of ticks played, no shot is
    fired. *)
Lemma quiet_run (inps : list Input) :
  forall g g2,
    Z.of_nat (length inps) < cooldown g <= 10 ->
    run g inps = Some g2 -> shotsFired g2 = shotsFired g.
Proof.
  induction inps as [| i rest IH]; intros g g2 Hc; simpl.
  - now intros [= <-].
  - destruct (Update g i) as [g1 |] eqn:Hu; [| discriminate].
    intros Hr. simpl length in Hc.
    destruct (win g || over g) eqn:Hp.
    + rewrite Update_frozen in Hu by assumption. injection Hu as <-.
      apply (IH g g2); [lia | exact Hr].
    + destruct (Update_shots g g1 i Hp Hu) as (S1 & S2).
      assert (Hcool : cooled g = cooldown g - 1).
      { unfold cooled. destruct (Z.ltb_spec 0 (cooldown g)); [| lia].
        unfold Int64.sub. apply wrap_small.
        unfold Int64.in_range, Int64.min_int, Int64.max_int. lia. }
      assert (Hf : fires i g = false).
      { unfold fires. rewrite Hcool.
        destruct (Z.eqb_spec (cooldown g - 1) 0); [lia |].
        apply andb_false_r. }
      rewrite Hf in S1, S2. rewrite <- S1.
      apply (IH g1 g2); [lia | exact Hr].
Qed.

(** X7.  A tick fires at most one shot, and only with the fire key held
    and the cooldown at 0 or 1; a shot sets the cooldown to the fire
    delay of the round, at least 8, and no further shot is fired during
    the next 7 ticks, whatever the keys. *)
Theorem shot_rate_limit (g g' : Game) (inp : Input) :
  Reachable g ->
  Update g inp = Some g' ->
  (shotsFired g' = shotsFired g
   \/ (shotsFired g' = S (shotsFired g) /\ keyFire inp = true
       /\ 0 <= cooldown g <= 1
       /\ cooldown g' = fireDelay (roundIdx g) /\ 8 <= cooldown g' <= 10))
  /\ (shotsFired g' = S (shotsFired g) ->
      forall inps g2,
        (length inps <= 7)%nat -> run g' inps = Some g2 ->
        shotsFired g2 = shotsFired g').
Proof.
  intros Hg Hu.
  destruct (Reachable_flags_ok g Hg) as (Hr & _).
  change len_rounds with 6 in Hr.
  destruct (Reachable_timers_ok g Hg) as (Hc & _).
  destruct (win g || over g) eqn:Hp.
  { rewrite Update_frozen in Hu by assumption. injection Hu as <-.
    split; [auto | lia]. }
  destruct (Update_shots g g' inp Hp Hu) as (S1 & S2).
  pose proof (fireDelay_bounds (roundIdx g)
                ltac:(unfold Int64.max_int; lia)) as Hd.
  destruct (fires inp g) eqn:Hf.
  - split.
    + right. unfold fires in Hf. apply andb_prop in Hf as (Hk & Hz).
      apply Z.eqb_eq in Hz. repeat (split; [auto; try lia |]).
      * unfold cooled in Hz. destruct (Z.ltb_spec 0 (cooldown g)); [| lia].
        unfold Int64.sub in Hz. rewrite wrap_small in Hz
          by (unfold Int64.in_range, Int64.min_int, Int64.max_int; lia).
        lia.
      * lia.
    + intros _ inps g2 Hlen. apply quiet_run. lia.
  - split; [auto | lia].
Qed.

End Shots.

(** ** How many bullets and enemies there are *)

Section Growth.
Context `{R : Resolv}.

Lemma bulletLoop_length (l : list bullet) :
  forall acc,
    (length (snd (fold_left bulletStep l acc))
     <= length (snd acc) + length l)%nat.
Proof.
  induction l as [| b l IH]; intros [[g dead] kept]; cbn [fold_left];
    [simpl; lia |].
  etransitivity; [apply IH |].
  unfold bulletStep. cbv zeta.
  destruct (IntersectionTest _ _ _); cbn [snd length]; [lia |].
  destruct (0 <? _)%float; cbn [snd length]; [| lia].
  rewrite length_app. simpl. lia.
Qed.

Lemma moveBullets_length (g : Game) :
  (length (bullets (fst (moveBullets g))) <= length (bullets g))%nat.
Proof.
  unfold moveBullets.
  pose proof (bulletLoop_length (bullets g) (g, ∅, [])) as H.
  destruct (fold_left bulletStep (bullets g) (g, ∅, [])) as [[g' d] k].
  simpl in *. lia.
Qed.

Lemma enemyLoop_length (dead : gset positive) (l : list enemy) :
  forall acc,
    (length (snd (fold_left (enemyStep dead) l acc))
     <= length (snd acc) + length l)%nat.
Proof.
  induction l as [| e l IH]; intros [g kept]; cbn [fold_left];
    [simpl; lia |].
  etransitivity; [apply IH |].
  unfold enemyStep. cbv zeta.
  destruct (reapEnemy dead _ _) as [g2 [e2 |]]; cbn [snd length]; [| lia].
  rewrite length_app. simpl. lia.
Qed.

Lemma moveEnemies_length (dead : gset positive) (g : Game) :
  (length (enemies (moveEnemies dead g)) <= length (enemies g))%nat.
Proof.
  unfold moveEnemies.
  pose proof (enemyLoop_length dead (enemies g) (g, [])) as H.
  destruct (fold_left (enemyStep dead) (enemies g) (g, [])) as [g' k].
  simpl in *. lia.
Qed.

Lemma prelude_entities (inp : Input) (g : Game) :
  enemies (prelude inp g) = enemies g
  /\ (length (bullets (prelude inp g))
      = length (bullets g) + (if fires inp g then 1 else 0))%nat.
Proof.
  unfold prelude.
  assert (A : forall x, bullets (scrollBackground x) = bullets x
                        /\ enemies (scrollBackground x) = enemies x
                        /\ cooldown (scrollBackground x) = cooldown x)
    by frame.
  assert (B : forall x, bullets (tickInv x) = bullets x
                        /\ enemies (tickInv x) = enemies x
                        /\ cooldown (tickInv x) = cooldown x) by frame.
  assert (C : forall x,
             enemies (shoot inp x) = enemies x
             /\ (length (bullets (shoot inp x))
                 = length (bullets x) + (if fires inp x then 1 else 0))%nat).
  { intros x. unfold shoot, fires, cooled. cbv zeta.
    destruct (0 <? cooldown x); simpl;
      destruct (keyFire inp && _); simpl;
      rewrite ?length_app; simpl; split; (reflexivity || lia). }
  destruct (C (tickInv (movePlayer inp (scrollBackground g)))) as (-> & ->).
  destruct (B (movePlayer inp (scrollBackground g))) as (-> & -> & B3).
  destruct (A g) as (A1 & A2 & A3).
  change (enemies (movePlayer inp ?x)) with (enemies x).
  change (bullets (movePlayer inp ?x)) with (bullets x).
  rewrite A1, A2. split; [reflexivity |].
  unfold fires, cooled. rewrite B3.
  change (cooldown (movePlayer inp ?x)) with (cooldown x).
  now rewrite A3.
Qed.

(** X8.  A tick adds at most one bullet, and none unless the fire test
    passes (fire key held and the cooldown run down); it adds at most
    one enemy. *)
Theorem tick_growth (g g' : Game) (inp : Input) :
  Update g inp = Some g' ->
  (length (bullets g')
   <= length (bullets g) + (if fires inp g then 1 else 0))%nat
  /\ (length (enemies g') <= length (enemies g) + 1)%nat.
Proof.
  intros Hu. destruct (win g || over g) eqn:Hp.
  { rewrite Update_frozen in Hu by assumption. injection Hu as <-. lia. }
  destruct (Update_playing g g' inp Hp Hu) as (gs & Hs & Ha).
  apply advanceRound_entities in Ha as (-> & -> & _).
  apply spawnEnemies_entities in Hs as (Sb & _ & Se).
  destruct (prelude_entities inp g) as (Pe & Pb).
  destruct (moveBullets_views gs) as (_ & _ & Be).
  pose proof (moveBullets_length gs) as Bb.
  set (gb := fst (moveBullets gs)) in *.
  pose proof (moveEnemies_length (snd (moveBullets gs)) gb) as Ee.
  assert (Eb : bullets (moveEnemies (snd (moveBullets gs)) gb) = bullets gb).
  { apply (moveEnemies_keeps (fun x => bullets x = bullets gb)); auto.
    intros x Hx. rewrite <- Hx.
    now destruct (sceneView_eq _ _ (loseLife_scene x))
      as (_ & _ & _ & -> & _). }
  rewrite Eb. split; [rewrite Sb in Bb; lia |].
  rewrite Be in Ee.
  destruct Se as [Se | (e & Se)]; rewrite Se in Ee;
    rewrite ?length_app in Ee; simpl in Ee; rewrite Pe in Ee; lia.
Qed.

End Growth.

(** ** The star field *)

Lemma newStars_length (n : nat) :
  forall r, length (fst (newStars n r)) = n.
Proof.
  induction n as [| n IH]; intros r; [reflexivity |].
  cbn [newStars]. unfold Float64. cbv zeta. cbn [fst snd].
  match goal with
  | |- context [newStars n ?r'] =>
      specialize (IH r'); destruct (newStars n r') as [rest r4]
  end.
  simpl in *. now rewrite IH.
Qed.

Lemma stepStar_fold (l : list star) :
  forall out r,
    map s_v (fst (fold_left stepStar l (out, r))) = map s_v out ++ map s_v l
    /\ (Forall (fun s => (screenH <? s_y s)%float = false) out ->
        Forall (fun s => (screenH <? s_y s)%float = false)
          (fst (fold_left stepStar l (out, r)))).
Proof.
  induction l as [| s l IH]; intros out r; cbn [fold_left].
  - simpl. rewrite app_nil_r. auto.
  - unfold stepStar at 2 4. cbv zeta.
    destruct (screenH <? s_y s + s_v s)%float eqn:E; unfold Float64;
      match goal with
      | |- context [fold_left stepStar l (?o, ?r')] =>
          destruct (IH o r') as (A & B)
      end;
      (split;
       [ rewrite A, map_app, <- app_assoc; reflexivity
       | intros Ho; apply B, Forall_app; split;
         [exact Ho | constructor; [| constructor]] ]).
    + reflexivity.
    + exact E.
Qed.

Lemma scrollBackground_stars (g : Game) :
  map s_v (stars (scrollBackground g)) = map s_v (stars g)
  /\ (bgImg g = None ->
      Forall (fun s => (screenH <? s_y s)%float = false)
        (stars (scrollBackground g)))
  /\ (bgImg g <> None -> stars (scrollBackground g) = stars g).
Proof.
  unfold scrollBackground. destruct (bgImg g) as [h |].
  - simpl. split; [reflexivity | split; [discriminate | reflexivity]].
  - destruct (stepStar_fold (stars g) [] (rng g)) as (A & B).
    destruct (fold_left stepStar (stars g) ([], rng g)) as [sts r].
    simpl in *. split; [exact A | split; [auto | congruence]].
Qed.

Section Stars.
Context `{R : Resolv}.

Lemma Update_stars (g g' : Game) (inp : Input) :
  Update g inp = Some g' ->
  map s_v (stars g') = map s_v (stars g) /\ bgImg g' = bgImg g
  /\ (bgImg g = None -> win g || over g = false ->
      Forall (fun s => (screenH <? s_y s)%float = false) (stars g'))
  /\ (bgImg g <> None -> stars g' = stars g).
Proof.
  intros Hu. destruct (win g || over g) eqn:Hp.
  { rewrite Update_frozen in Hu by assumption. injection Hu as <-.
    split; [reflexivity | split; [reflexivity |]].
    split; [discriminate | reflexivity]. }
  apply Update_lateView in Hu; [| exact Hp].
  apply lateView_eq in Hu as (_ & _ & _ & _ & -> & -> & _).
  unfold prelude.
  destruct (shoot_cooldown inp (tickInv (movePlayer inp (scrollBackground g))))
    as (_ & _ & -> & -> & _).
  destruct (tickInv_early (movePlayer inp (scrollBackground g)))
    as (_ & _ & -> & -> & _).
  destruct (movePlayer_early inp (scrollBackground g))
    as (_ & _ & -> & ->).
  destruct (scrollBackground_early g) as (_ & _ & ->).
  destruct (scrollBackground_stars g) as (A & B & C). auto.
Qed.

(** X10.  The fallback star field always has 60 stars.  A tick never
    changes the speed of a star nor whether there is a background
    image; with an image the stars are not touched, and without one no
    star is below the bottom edge after a tick of a game in play. *)
Theorem star_field (g : Game) :
  Reachable g ->
  length (stars g) = 60%nat
  /\ forall inp g',
       Update g inp = Some g' ->
       map s_v (stars g') = map s_v (stars g) /\ bgImg g' = bgImg g
       /\ (bgImg g = None -> win g || over g = false ->
           Forall (fun s => (screenH <? s_y s)%float = false) (stars g'))
       /\ (bgImg g <> None -> stars g' = stars g).
Proof.
  intros H. split; [| intros inp g'; apply Update_stars].
  induction H as [source img | g inp g' Hg IH Hu].
  - unfold newGame. cbv zeta.
    destruct (AddRectangle _ _ _ _ _ _) as [psh sp].
    pose proof (newStars_length 60 {| src := source; drawn := 0 |}) as L.
    destruct (newStars _ _) as [sts r]. exact L.
  - apply Update_stars in Hu as (Hu & _).
    rewrite <- (length_map s_v), Hu, length_map. exact IH.
Qed.

End Stars.

(** ** The space and the entities *)

Lemma filter_Permutation_bool {A : Type} (f : A -> bool) (l l' : list A) :
  Permutation l l' -> Permutation (List.filter f l) (List.filter f l').
Proof.
  induction 1 as [| x l l' _ IH | x y l | l l' l'' _ IH1 _ IH2]; simpl.
  - constructor.
  - destruct (f x); [now constructor | exact IH].
  - destruct (f x), (f y); try reflexivity. apply perm_swap.
  - now transitivity (List.filter f l').
Qed.

Lemma move_shape_sid (i : positive) (x y : float) (s : Shape) :
  sid (move_shape i x y s) = sid s.
Proof. unfold move_shape. now destruct (Pos.eqb (sid s) i). Qed.

Lemma move_others (i : positive) (x y : float) (l : list Shape) :
  (forall s, In s l -> sid s <> i) -> List.map (move_shape i x y) l = l.
Proof.
  induction l as [| s l IH]; intros H; simpl; [reflexivity |].
  rewrite IH by (intros t Ht; apply H; now right).
  unfold move_shape. destruct (Pos.eqb_spec (sid s) i) as [E | _];
    [| reflexivity].
  exfalso. apply (H s); [now left | exact E].
Qed.

Lemma filter_others (i : positive) (l : list Shape) :
  (forall s, In s l -> sid s <> i) ->
  List.filter (fun s => negb (Pos.eqb (sid s) i)) l = l.
Proof.
  induction l as [| s l IH]; intros H; simpl; [reflexivity |].
  rewrite IH by (intros t Ht; apply H; now right).
  destruct (Pos.eqb_spec (sid s) i) as [E | _]; [| reflexivity].
  exfalso. apply (H s); [now left | exact E].
Qed.

Lemma NoDup_mid (l1 l2 : list Shape) (s : Shape) :
  List.NoDup (map sid (l1 ++ s :: l2)) ->
  (forall t, In t l1 -> sid t <> sid s)
  /\ (forall t, In t l2 -> sid t <> sid s)
  /\ List.NoDup (map sid (l1 ++ l2)).
Proof.
  rewrite !map_app. simpl. intros H.
  apply List.NoDup_remove in H as (H1 & H2).
  repeat split; [| | exact H1]; intros t Ht E; apply H2, in_or_app;
    [left | right]; rewrite <- E; now apply in_map.
Qed.

Lemma scene_perm (sp : Space) (l l' : list Shape) :
  scene_ok sp l -> Permutation l l' -> scene_ok sp l'.
Proof.
  intros (H1 & H2 & H3) P. split; [| split; [| exact H3]].
  - now transitivity l.
  - apply (Permutation_NoDup (Permutation_map sid P) H2).
Qed.

Lemma scene_add (sp : Space) (l : list Shape) (t : Tag) (x y w h : float) :
  scene_ok sp l ->
  scene_ok (snd (AddRectangle sp t x y w h))
    ({| sid := nextId sp; stag := t; sx := x; sy := y; sw := w; sh := h |}
     :: l).
Proof.
  intros (H1 & H2 & H3). unfold AddRectangle. cbv zeta. cbn [snd].
  split; [| split]; cbn [shapes nextId].
  - apply Permutation_sym, Permutation_cons_app.
    rewrite app_nil_r. now apply Permutation_sym.
  - cbn [map sid]. constructor; [| exact H2].
    intros Hin. apply in_map_iff in Hin as (s & Hs & Hin).
    apply (Permutation_in _ (Permutation_sym H1)) in Hin.
    rewrite List.Forall_forall in H3. specialize (H3 s Hin). lia.
  - apply List.Forall_app. split.
    + eapply List.Forall_impl; [| exact H3]. cbv beta. intros s Hs. lia.
    + constructor; [cbn [sid]; lia | constructor].
Qed.

Lemma scene_move (sp : Space) (l1 l2 : list Shape) (s : Shape)
    (x y : float) :
  scene_ok sp (l1 ++ s :: l2) ->
  scene_ok (SetPosition sp (sid s) x y)
    (l1 ++ {| sid := sid s; stag := stag s; sx := x; sy := y;
              sw := sw s; sh := sh s |} :: l2).
Proof.
  intros (H1 & H2 & H3).
  destruct (NoDup_mid l1 l2 s H2) as (N1 & N2 & _).
  unfold SetPosition. split; [| split]; cbn [shapes nextId].
  - apply (Permutation_map (move_shape (sid s) x y)) in H1.
    rewrite map_app in H1. cbn [map] in H1.
    rewrite (move_others _ _ _ l1 N1), (move_others _ _ _ l2 N2) in H1.
    unfold move_shape at 2 in H1. now rewrite Pos.eqb_refl in H1.
  - rewrite map_app in *. exact H2.
  - rewrite List.Forall_forall in *. intros t Ht.
    apply in_map_iff in Ht as (u & <- & Hu).
    rewrite move_shape_sid. exact (H3 u Hu).
Qed.

Lemma scene_remove (sp : Space) (l1 l2 : list Shape) (s : Shape) :
  scene_ok sp (l1 ++ s :: l2) -> scene_ok (Remove sp (sid s)) (l1 ++ l2).
Proof.
  intros (H1 & H2 & H3).
  destruct (NoDup_mid l1 l2 s H2) as (N1 & N2 & N3).
  unfold Remove. split; [| split]; cbn [shapes nextId].
  - apply (filter_Permutation_bool
             (fun t => negb (Pos.eqb (sid t) (sid s)))) in H1.
    rewrite List.filter_app in H1. cbn [List.filter] in H1.
    rewrite Pos.eqb_refl in H1. cbn [negb] in H1.
    now rewrite (filter_others _ l1 N1), (filter_others _ l2 N2) in H1.
  - exact N3.
  - rewrite List.Forall_forall in *. intros t Ht.
    apply List.filter_In in Ht as (Ht & _). exact (H3 t Ht).
Qed.

Lemma sceneShapes_bullet (pl : Shape) (k r : list bullet) (b : bullet)
    (es : list enemy) :
  sceneShapes pl (k ++ b :: r) es
  = (pl :: map bulletShape k)
    ++ bulletShape b :: (map bulletShape r ++ map enemyShape es).
Proof.
  unfold sceneShapes. rewrite map_app. simpl. now rewrite <- app_assoc.
Qed.

Lemma sceneShapes_bullets (pl : Shape) (k r : list bullet)
    (es : list enemy) :
  sceneShapes pl (k ++ r) es
  = (pl :: map bulletShape k) ++ (map bulletShape r ++ map enemyShape es).
Proof.
  unfold sceneShapes. rewrite map_app. simpl. now rewrite <- app_assoc.
Qed.

Lemma sceneShapes_enemy (pl : Shape) (bs : list bullet) (k r : list enemy)
    (e : enemy) :
  sceneShapes pl bs (k ++ e :: r)
  = (pl :: map bulletShape bs ++ map enemyShape k)
    ++ enemyShape e :: map enemyShape r.
Proof.
  unfold sceneShapes. rewrite map_app. simpl. now rewrite <- app_assoc.
Qed.

Lemma sceneShapes_enemies (pl : Shape) (bs : list bullet)
    (k r : list enemy) :
  sceneShapes pl bs (k ++ r)
  = (pl :: map bulletShape bs ++ map enemyShape k) ++ map enemyShape r.
Proof.
  unfold sceneShapes. rewrite map_app. simpl. now rewrite <- app_assoc.
Qed.

Lemma scene_player (sp : Space) (pl : Shape) (bs : list bullet)
    (es : list enemy) (x y : float) :
  scene_ok sp (sceneShapes pl bs es) ->
  scene_ok (SetPosition sp (sid pl) x y)
    (sceneShapes {| sid := sid pl; stag := stag pl; sx := x; sy := y;
                    sw := sw pl; sh := sh pl |} bs es).
Proof. exact (scene_move sp [] _ pl x y). Qed.

Lemma scene_new_bullet (sp : Space) (pl : Shape) (bs : list bullet)
    (es : list enemy) (x y v : float) :
  scene_ok sp (sceneShapes pl bs es) ->
  scene_ok (snd (AddRectangle sp tagBullet x y bulletSize bulletSize))
    (sceneShapes pl
       (bs ++ [{| b_x := x; b_y := y; b_vy := v; b_sh := nextId sp |}]) es).
Proof.
  intros H. apply (scene_add sp _ tagBullet x y bulletSize bulletSize) in H.
  apply (scene_perm _ _ _ H). unfold sceneShapes.
  rewrite map_app, <- app_assoc. cbn [map app].
  etransitivity; [apply perm_swap |]. apply perm_skip.
  apply Permutation_middle.
Qed.

Lemma scene_new_enemy (sp : Space) (pl : Shape) (bs : list bullet)
    (es : list enemy) (x y v : float) :
  scene_ok sp (sceneShapes pl bs es) ->
  scene_ok (snd (AddRectangle sp tagEnemy x y enemySize enemySize))
    (sceneShapes pl bs
       (es ++ [{| e_x := x; e_y := y; e_vy := v; e_sh := nextId sp |}])).
Proof.
  intros H. apply (scene_add sp _ tagEnemy x y enemySize enemySize) in H.
  apply (scene_perm _ _ _ H). unfold sceneShapes.
  rewrite map_app, app_assoc. cbn [map].
  etransitivity; [apply perm_swap |]. apply perm_skip.
  apply Permutation_cons_append.
Qed.

Lemma space_ok_scene (g g' : Game) :
  sceneView g' = sceneView g -> space_ok g -> space_ok g'.
Proof.
  intros H. apply sceneView_eq in H as (Hx & Hy & Hp & Hb & He & Hs).
  unfold space_ok, entityShapes, playerShape.
  now rewrite Hx, Hy, Hp, Hb, He, Hs.
Qed.

Lemma newGame_space_ok (source : nat -> float) (img : option Z) :
  space_ok (newGame source img).
Proof.
  unfold newGame. cbv zeta. unfold AddRectangle. cbv zeta.
  destruct (newStars _ _) as [sts r].
  unfold space_ok, scene_ok, entityShapes, sceneShapes, playerShape.
  cbn. split; [reflexivity |]. split.
  - constructor; [intros [] | constructor].
  - constructor; [cbn; lia | constructor].
Qed.

Lemma movePlayer_space_ok (inp : Input) (g : Game) :
  space_ok g -> space_ok (movePlayer inp g).
Proof.
  intros H. unfold movePlayer. cbv zeta.
  match goal with
  | |- space_ok (set_space (SetPosition _ _ ?x ?y) _) =>
      exact (scene_player (space g) (playerShape g) (bullets g) (enemies g)
               x y H)
  end.
Qed.

Lemma shoot_space_ok (inp : Input) (g : Game) :
  space_ok g -> space_ok (shoot inp g).
Proof.
  intros H. unfold shoot. cbv zeta.
  assert (H1 : space_ok (if 0 <? cooldown g
                         then set_cooldown (Int64.sub (cooldown g) 1) g
                         else g)) by (destruct (0 <? cooldown g); exact H).
  revert H1. generalize (if 0 <? cooldown g
                         then set_cooldown (Int64.sub (cooldown g) 1) g
                         else g).
  clear H. intros g1 H. destruct (keyFire inp && _); [| exact H].
  exact (scene_new_bullet (space g1) (playerShape g1) (bullets g1)
           (enemies g1) (px g1 + 17.5 - 13)%float (py g1 - bulletSize)%float
           bulletSpeed H).
Qed.

Lemma spawnEnemy_space_ok (g : Game) : space_ok g -> space_ok (spawnEnemy g).
Proof.
  intros H.
  exact (scene_new_enemy (space g) (playerShape g) (bullets g) (enemies g)
           (src (rng g) (drawn (rng g)) * 442)%float (- enemySize)%float
           (enemySpeed (roundIdx g)) H).
Qed.

Lemma spawnEnemies_space_ok (g g' : Game) :
  space_ok g -> spawnEnemies g = Some g' -> space_ok g'.
Proof.
  intros H. unfold spawnEnemies. cbv zeta.
  change (space_ok (set_spawnTimer (Int64.sub (spawnTimer g) 1) g)) in H.
  revert H. generalize (set_spawnTimer (Int64.sub (spawnTimer g) 1) g).
  intros g1 H.
  destruct (_ && _); [| now intros [= <-]].
  destruct (rounds_at (roundIdx g1)) as [q |]; [| discriminate].
  destruct (roundSpawned g1 <? q); intros [= <-]; [| exact H].
  exact (spawnEnemy_space_ok g1 H).
Qed.

Section Scene.
Context `{R : Resolv}.

Lemma bulletStep_scene (g : Game) (dead : gset positive)
    (kept : list bullet) (b : bullet) (rest : list bullet) :
  scene_ok (space g)
    (sceneShapes (playerShape g) (kept ++ b :: rest) (enemies g)) ->
  let acc := bulletStep (g, dead, kept) b in
  scene_ok (space (fst (fst acc)))
    (sceneShapes (playerShape (fst (fst acc))) (snd acc ++ rest)
       (enemies (fst (fst acc)))).
Proof.
  intros H. rewrite sceneShapes_bullet in H.
  apply (scene_move _ _ _ _ (b_x b) (b_y b + b_vy b)%float) in H.
  assert (Hrm : scene_ok
                  (Remove (SetPosition (space g) (b_sh b) (b_x b)
                             (b_y b + b_vy b)%float) (b_sh b))
                  (sceneShapes (playerShape g) (kept ++ rest) (enemies g))).
  { rewrite sceneShapes_bullets. exact (scene_remove _ _ _ _ H). }
  cbv zeta. unfold bulletStep. cbv zeta.
  destruct (IntersectionTest _ _ _); [exact Hrm |].
  destruct (0 <? _)%float; [| exact Hrm].
  cbn [fst snd]. rewrite <- app_assoc. cbn [app].
  rewrite sceneShapes_bullet. exact H.
Qed.

Lemma bulletLoop_scene (rest : list bullet) :
  forall g dead kept,
    scene_ok (space g)
      (sceneShapes (playerShape g) (kept ++ rest) (enemies g)) ->
    let acc := fold_left bulletStep rest (g, dead, kept) in
    scene_ok (space (fst (fst acc)))
      (sceneShapes (playerShape (fst (fst acc))) (snd acc)
         (enemies (fst (fst acc)))).
Proof.
  induction rest as [| b rest IH]; intros g dead kept H; cbn [fold_left].
  - rewrite app_nil_r in H. exact H.
  - pose proof (bulletStep_scene g dead kept b rest H) as H1.
    cbv zeta in H1.
    destruct (bulletStep (g, dead, kept) b) as [[g1 d1] k1].
    exact (IH g1 d1 k1 H1).
Qed.

Lemma moveBullets_space_ok (g : Game) :
  space_ok g -> space_ok (fst (moveBullets g)).
Proof.
  intros H. unfold moveBullets.
  pose proof (bulletLoop_scene (bullets g) g ∅ [] H) as H1.
  cbv zeta in H1.
  destruct (fold_left bulletStep (bullets g) (g, ∅, [])) as [[g1 d1] k1].
  exact H1.
Qed.

Lemma touchPlayer_scene (g : Game) : sceneView (touchPlayer g) = sceneView g.
Proof.
  unfold touchPlayer. destruct (inv g =? 0); [| reflexivity].
  destruct (IntersectionTest _ _ _); [apply loseLife_scene | reflexivity].
Qed.

Lemma scene_ok_view (g g' : Game) (es : list enemy) :
  sceneView g' = sceneView g ->
  scene_ok (space g) (sceneShapes (playerShape g) (bullets g) es) ->
  scene_ok (space g') (sceneShapes (playerShape g') (bullets g') es).
Proof.
  intros H. apply sceneView_eq in H as (Hx & Hy & Hp & Hb & _ & Hs).
  unfold playerShape. now rewrite Hx, Hy, Hp, Hb, Hs.
Qed.

Lemma enemyStep_scene (dead : gset positive) (g : Game)
    (kept : list enemy) (e : enemy) (rest : list enemy) :
  scene_ok (space g)
    (sceneShapes (playerShape g) (bullets g) (kept ++ e :: rest)) ->
  let acc := enemyStep dead (g, kept) e in
  scene_ok (space (fst acc))
    (sceneShapes (playerShape (fst acc)) (bullets (fst acc))
       (snd acc ++ rest)).
Proof.
  intros H. rewrite sceneShapes_enemy in H.
  apply (scene_move _ _ _ _ (e_x e) (e_y e + e_vy e)%float) in H.
  cbv zeta. unfold enemyStep. cbv zeta.
  set (e1 := {| e_x := e_x e; e_y := (e_y e + e_vy e)%float;
                e_vy := e_vy e; e_sh := e_sh e |}).
  set (g1 := set_space _ g).
  assert (H1 : scene_ok (space g1)
                 (sceneShapes (playerShape g1) (bullets g1)
                    (kept ++ e1 :: rest))).
  { rewrite sceneShapes_enemy. exact H. }
  apply (scene_ok_view g1 (touchPlayer g1) _ (touchPlayer_scene g1)) in H1.
  clearbody g1. clear H. revert H1. generalize (touchPlayer g1).
  intros g2 H.
  assert (Hrm : scene_ok (space (set_space (Remove (space g2) (e_sh e1)) g2))
                  (sceneShapes (playerShape g2) (bullets g2) (kept ++ rest))).
  { rewrite sceneShapes_enemies. rewrite sceneShapes_enemy in H.
    exact (scene_remove _ _ _ _ H). }
  unfold reapEnemy. destruct (bool_decide _); [exact Hrm |].
  destruct (screenH <? _)%float.
  - cbn [fst snd].
    exact (scene_ok_view _ _ _ (loseLife_scene _) Hrm).
  - cbn [fst snd]. rewrite <- app_assoc. exact H.
Qed.

Lemma enemyLoop_scene (dead : gset positive) (rest : list enemy) :
  forall g kept,
    scene_ok (space g)
      (sceneShapes (playerShape g) (bullets g) (kept ++ rest)) ->
    let acc := fold_left (enemyStep dead) rest (g, kept) in
    scene_ok (space (fst acc))
      (sceneShapes (playerShape (fst acc)) (bullets (fst acc)) (snd acc)).
Proof.
  induction rest as [| e rest IH]; intros g kept H; cbn [fold_left].
  - rewrite app_nil_r in H. exact H.
  - pose proof (enemyStep_scene dead g kept e rest H) as H1.
    cbv zeta in H1.
    destruct (enemyStep dead (g, kept) e) as [g1 k1].
    exact (IH g1 k1 H1).
Qed.

Lemma moveEnemies_space_ok (dead : gset positive) (g : Game) :
  space_ok g -> space_ok (moveEnemies dead g).
Proof.
  intros H. unfold moveEnemies.
  pose proof (enemyLoop_scene dead (enemies g) g [] H) as H1.
  cbv zeta in H1.
  destruct (fold_left (enemyStep dead) (enemies g) (g, [])) as [g1 k1].
  exact H1.
Qed.

Lemma Update_space_ok (g g' : Game) (inp : Input) :
  space_ok g -> Update g inp = Some g' -> space_ok g'.
Proof.
  intros H Hu. destruct (win g || over g) eqn:Hp.
  { rewrite Update_frozen in Hu by assumption. now injection Hu as <-. }
  pose proof (Update_lateView g g' inp Hp Hu) as Hlate.
  destruct (Update_playing g g' inp Hp Hu) as (gs & Hs & Ha).
  assert (H1 : space_ok (prelude inp g)).
  { unfold prelude. apply shoot_space_ok.
    apply (space_ok_scene (movePlayer inp (scrollBackground g)));
      [unfold tickInv; now destruct (0 <? inv _) |].
    apply movePlayer_space_ok.
    apply (space_ok_scene g); [| exact H].
    unfold scrollBackground. destruct (bgImg g); [reflexivity |].
    now destruct (fold_left stepStar (stars g) ([], rng g)). }
  apply (spawnEnemies_space_ok _ _ H1) in Hs.
  apply moveBullets_space_ok in Hs.
  apply (moveEnemies_space_ok (snd (moveBullets gs))) in Hs.
  revert Hs. apply space_ok_scene.
  apply advanceRound_lateView in Ha as Hl.
  apply lateView_eq in Hl as (Hx & Hy & Hsh & _).
  apply advanceRound_entities in Ha as (Hb & He & _ & Hsp).
  unfold sceneView. now rewrite Hx, Hy, Hsh, Hb, He, Hsp.
Qed.

Lemma Reachable_space_ok (g : Game) : Reachable g -> space_ok g.
Proof.
  intros H. induction H as [source img | g inp g' Hg IH Hu].
  - apply newGame_space_ok.
  - exact (Update_space_ok g g' inp IH Hu).
Qed.

Lemma handles_sids (g : Game) : map sid (entityShapes g) = handles g.
Proof.
  unfold entityShapes, sceneShapes, handles. cbn [map].
  now rewrite map_app, !map_map.
Qed.

(** X5.  In every state a game reaches the space holds exactly the
    shapes the game points to: the player's and one per live bullet and
    enemy.  No two entities share a shape, no removed entity leaves its
    shape behind and no live entity has lost its own. *)
Theorem handles_are_shapes (g : Game) :
  Reachable g ->
  List.NoDup (handles g)
  /\ Permutation (map sid (shapes (space g))) (handles g)
  /\ length (shapes (space g))
     = S (length (bullets g) + length (enemies g))
  /\ Forall (fun i => (i < nextId (space g))%positive) (handles g).
Proof.
  intros H. destruct (Reachable_space_ok g H) as (H1 & H2 & H3).
  rewrite handles_sids in H2.
  pose proof (Permutation_map sid H1) as H4. rewrite handles_sids in H4.
  split; [exact H2 |]. split; [exact H4 |]. split.
  - rewrite (Permutation_length H1). unfold entityShapes, sceneShapes.
    cbn [length]. now rewrite length_app, !length_map.
  - apply (Permutation_Forall H4). rewrite List.Forall_forall in *.
    intros i Hi. apply in_map_iff in Hi as (s & <- & Hs). exact (H3 s Hs).
Qed.

Lemma find_by_sid (l : list Shape) (s : Shape) :
  List.NoDup (map sid l) -> In s l ->
  List.find (fun t => Pos.eqb (sid t) (sid s)) l = Some s.
Proof.
  induction l as [| t l IH]; intros Hn Hin; [destruct Hin |].
  cbn [map] in Hn. apply List.NoDup_cons_iff in Hn as (Hn1 & Hn2).
  cbn [List.find]. destruct Hin as [-> | Hin].
  - now rewrite Pos.eqb_refl.
  - destruct (Pos.eqb_spec (sid t) (sid s)) as [E | _]; [| now apply IH].
    exfalso. apply Hn1. rewrite E. now apply in_map.
Qed.

(** X6.  In every state a game reaches each collision shape is where
    its entity is: looking up the player's handle gives an untagged
    35x35 rectangle at (px, py), a bullet's handle a 26x26 rectangle
    tagged bullet at the bullet's position, an enemy's handle a 38x38
    rectangle tagged enemy at the enemy's position. *)
Theorem shapes_follow_entities (g : Game) :
  Reachable g ->
  lookup_shape (space g) (playerSh g)
  = Some {| sid := playerSh g; stag := tagNone; sx := px g; sy := py g;
            sw := 35; sh := 35 |}
  /\ (forall b, In b (bullets g) ->
      lookup_shape (space g) (b_sh b)
      = Some {| sid := b_sh b; stag := tagBullet; sx := b_x b; sy := b_y b;
                sw := 26; sh := 26 |})
  /\ (forall e, In e (enemies g) ->
      lookup_shape (space g) (e_sh e)
      = Some {| sid := e_sh e; stag := tagEnemy; sx := e_x e; sy := e_y e;
                sw := 38; sh := 38 |}).
Proof.
  intros H. destruct (Reachable_space_ok g H) as (H1 & H2 & _).
  assert (Hn : List.NoDup (map sid (shapes (space g))))
    by exact (Permutation_NoDup
                (Permutation_sym (Permutation_map sid H1)) H2).
  assert (Hin : forall s, In s (entityShapes g) ->
                          lookup_shape (space g) (sid s) = Some s).
  { intros s Hs. apply (find_by_sid _ _ Hn).
    exact (Permutation_in _ (Permutation_sym H1) Hs). }
  split; [| split].
  - apply (Hin (playerShape g)). now left.
  - intros b Hb. apply (Hin (bulletShape b)). right.
    apply in_or_app. left. now apply in_map.
  - intros e He. apply (Hin (enemyShape e)). right.
    apply in_or_app. right. now apply in_map.
Qed.

End Scene.

(** ** The speeds of bullets and enemies *)

Lemma entities_ok_same (g g' : Game) :
  bullets g' = bullets g -> enemies g' = enemies g ->
  entities_ok g -> entities_ok g'.
Proof. unfold entities_ok. now intros -> ->. Qed.

Lemma shoot_entities_ok (inp : Input) (g : Game) :
  entities_ok g -> entities_ok (shoot inp g).
Proof.
  intros (Hb & He). unfold shoot. cbv zeta.
  destruct (0 <? cooldown g); cbn [cooldown set_cooldown];
    (destruct (keyFire inp && _); [| split; assumption]);
    (split; cbn; [| exact He]);
    (apply List.Forall_app; split; [exact Hb |]);
    (constructor; [reflexivity | constructor]).
Qed.

Lemma spawnEnemies_entities_ok (g g' : Game) :
  entities_ok g -> spawnEnemies g = Some g' -> entities_ok g'.
Proof.
  intros (Hb & He). unfold spawnEnemies. cbv zeta. cbn.
  destruct (_ && _); [| intros [= <-]; split; assumption].
  destruct (rounds_at (roundIdx g)) as [q |] eqn:Hq; [| discriminate].
  apply rounds_at_Some in Hq as (Hq & _).
  destruct (roundSpawned g <? q); intros [= <-]; [| split; assumption].
  split; cbn; [exact Hb |].
  apply List.Forall_app. split; [exact He |].
  constructor; [| constructor]. exists (roundIdx g). auto.
Qed.

Section Speeds.
Context `{R : Resolv}.

Lemma bulletLoop_vy (P : bullet -> Prop)
    (HP : forall b, P b ->
                    P {| b_x := b_x b; b_y := (b_y b + b_vy b)%float;
                         b_vy := b_vy b; b_sh := b_sh b |})
    (rest : list bullet) :
  forall acc,
    Forall P rest -> Forall P (snd acc) ->
    Forall P (snd (fold_left bulletStep rest acc)).
Proof.
  induction rest as [| b rest IH]; intros [[g dead] kept] Hr Hk;
    cbn [fold_left]; [exact Hk |].
  apply List.Forall_cons_iff in Hr as (Hb & Hr).
  apply IH; [exact Hr |].
  unfold bulletStep. cbv zeta.
  destruct (IntersectionTest _ _ _); [exact Hk |].
  destruct (0 <? _)%float; [| exact Hk].
  cbn [snd]. apply List.Forall_app. split; [exact Hk |].
  constructor; [now apply HP | constructor].
Qed.

Lemma enemyLoop_vy (dead : gset positive) (P : enemy -> Prop)
    (HP : forall e, P e ->
                    P {| e_x := e_x e; e_y := (e_y e + e_vy e)%float;
                         e_vy := e_vy e; e_sh := e_sh e |})
    (rest : list enemy) :
  forall acc,
    Forall P rest -> Forall P (snd acc) ->
    Forall P (snd (fold_left (enemyStep dead) rest acc)).
Proof.
  induction rest as [| e rest IH]; intros [g kept] Hr Hk;
    cbn [fold_left]; [exact Hk |].
  apply List.Forall_cons_iff in Hr as (He & Hr).
  apply IH; [exact Hr |].
  unfold enemyStep. cbv zeta. unfold reapEnemy.
  destruct (bool_decide _); [exact Hk |].
  destruct (screenH <? _)%float; [exact Hk |].
  cbn [snd]. apply List.Forall_app. split; [exact Hk |].
  constructor; [now apply HP | constructor].
Qed.

Lemma moveBullets_entities_ok (g : Game) :
  entities_ok g -> entities_ok (fst (moveBullets g)).
Proof.
  intros (Hb & He). destruct (moveBullets_views g) as (_ & _ & E).
  split; [| now rewrite E].
  unfold moveBullets.
  pose proof (bulletLoop_vy (fun b => b_vy b = bulletSpeed)
                ltac:(auto) (bullets g) (g, ∅, []) Hb
                ltac:(constructor)) as H.
  destruct (fold_left bulletStep (bullets g) (g, ∅, [])) as [[g1 d1] k1].
  exact H.
Qed.

Lemma moveEnemies_bullets (dead : gset positive) (g : Game) :
  bullets (moveEnemies dead g) = bullets g.
Proof.
  apply (moveEnemies_keeps (fun x => bullets x = bullets g)); auto.
  intros x Hx. rewrite <- Hx.
  now destruct (sceneView_eq _ _ (loseLife_scene x))
    as (_ & _ & _ & -> & _).
Qed.

Lemma moveEnemies_entities_ok (dead : gset positive) (g : Game) :
  entities_ok g -> entities_ok (moveEnemies dead g).
Proof.
  intros (Hb & He). split; [now rewrite moveEnemies_bullets |].
  unfold moveEnemies.
  pose proof (enemyLoop_vy dead
                (fun e => exists r, 0 <= r < len_rounds
                                    /\ e_vy e = enemySpeed r)
                ltac:(auto) (enemies g) (g, []) He
                ltac:(constructor)) as H.
  destruct (fold_left (enemyStep dead) (enemies g) (g, [])) as [g1 k1].
  exact H.
Qed.

Lemma Update_entities_ok (g g' : Game) (inp : Input) :
  entities_ok g -> Update g inp = Some g' -> entities_ok g'.
Proof.
  intros H Hu. destruct (win g || over g) eqn:Hp.
  { rewrite Update_frozen in Hu by assumption. now injection Hu as <-. }
  destruct (Update_playing g g' inp Hp Hu) as (gs & Hs & Ha).
  assert (H1 : entities_ok (prelude inp g)).
  { unfold prelude. apply shoot_entities_ok.
    apply (entities_ok_same g); [| | exact H].
    - unfold tickInv. destruct (0 <? inv _); cbn;
        unfold scrollBackground; destruct (bgImg g); try reflexivity;
        now destruct (fold_left stepStar (stars g) ([], rng g)).
    - unfold tickInv. destruct (0 <? inv _); cbn;
        unfold scrollBackground; destruct (bgImg g); try reflexivity;
        now destruct (fold_left stepStar (stars g) ([], rng g)). }
  apply (spawnEnemies_entities_ok _ _ H1) in Hs.
  apply moveBullets_entities_ok in Hs.
  apply (moveEnemies_entities_ok (snd (moveBullets gs))) in Hs.
  apply advanceRound_entities in Ha as (Hb & He & _).
  exact (entities_ok_same _ _ Hb He Hs).
Qed.

Lemma Reachable_entities_ok (g : Game) : Reachable g -> entities_ok g.
Proof.
  intros H. induction H as [source img | g inp g' Hg IH Hu].
  - unfold newGame. cbv zeta.
    destruct (AddRectangle _ _ _ _ _ _) as [psh sp].
    destruct (newStars _ _) as [sts r]. split; constructor.
  - exact (Update_entities_ok g g' inp IH Hu).
Qed.

Lemma enemySpeed_range (r : Z) :
  0 <= r < len_rounds ->
  (1 <? enemySpeed r)%float = true /\ (enemySpeed r <? 3)%float = true.
Proof.
  change len_rounds with 6. intros Hr.
  assert (E : r = 0 \/ r = 1 \/ r = 2 \/ r = 3 \/ r = 4 \/ r = 5) by lia.
  destruct E as [-> | [-> | [-> | [-> | [-> | ->]]]]];
    split; vm_compute; reflexivity.
Qed.

(** X11.  In every state a game reaches each bullet rises at 6 pixels a
    tick, and each enemy falls at the speed of one of the six rounds,
    which is more than 1 and less than 3 pixels a tick: no entity
    stands still or moves the wrong way. *)
Theorem entity_speeds (g : Game) :
  Reachable g ->
  (forall b, In b (bullets g) -> b_vy b = (-6)%float)
  /\ (forall e, In e (enemies g) ->
      (exists r, 0 <= r < 6 /\ e_vy e = enemySpeed r)
      /\ (1 <? e_vy e)%float = true /\ (e_vy e <? 3)%float = true).
Proof.
  intros H. destruct (Reachable_entities_ok g H) as (Hb & He).
  rewrite List.Forall_forall in Hb, He. split; [exact Hb |].
  intros e Hin. destruct (He e Hin) as (r & Hr & E).
  split; [exists r; auto |]. rewrite E. now apply enemySpeed_range.
Qed.

End Speeds.

(** ** Live entities are inside the play field *)

Section Bounds.
Context `{R : Resolv}.

Lemma bulletLoop_kept (rest : list bullet) :
  forall acc,
    Forall (fun b => (0 <? b_y b + bulletSize)%float = true) (snd acc) ->
    Forall (fun b => (0 <? b_y b + bulletSize)%float = true)
      (snd (fold_left bulletStep rest acc)).
Proof.
  induction rest as [| b rest IH]; intros [[g dead] kept] Hk;
    cbn [fold_left]; [exact Hk |].
  apply IH. unfold bulletStep. cbv zeta.
  destruct (IntersectionTest _ _ _); [exact Hk |].
  destruct (0 <? _)%float eqn:E; [| exact Hk].
  cbn [snd]. apply List.Forall_app. split; [exact Hk |].
  constructor; [exact E | constructor].
Qed.

Lemma enemyLoop_kept (dead : gset positive) (rest : list enemy) :
  forall acc,
    Forall (fun e => (screenH <? e_y e)%float = false /\ e_sh e ∉ dead)
      (snd acc) ->
    Forall (fun e => (screenH <? e_y e)%float = false /\ e_sh e ∉ dead)
      (snd (fold_left (enemyStep dead) rest acc)).
Proof.
  induction rest as [| e rest IH]; intros [g kept] Hk;
    cbn [fold_left]; [exact Hk |].
  apply IH. unfold enemyStep. cbv zeta. unfold reapEnemy.
  destruct (bool_decide _) eqn:D; [exact Hk |].
  destruct (screenH <? _)%float eqn:E; [exact Hk |].
  cbn [snd]. apply List.Forall_app. split; [exact Hk |].
  apply bool_decide_eq_false in D.
  constructor; [exact (conj E D) | constructor].
Qed.

Lemma moveBullets_kept (g : Game) :
  Forall (fun b => (0 <? b_y b + bulletSize)%float = true)
    (bullets (fst (moveBullets g))).
Proof.
  unfold moveBullets.
  pose proof (bulletLoop_kept (bullets g) (g, ∅, []) ltac:(constructor))
    as H.
  destruct (fold_left bulletStep (bullets g) (g, ∅, [])) as [[g1 d1] k1].
  exact H.
Qed.

Lemma moveEnemies_kept (dead : gset positive) (g : Game) :
  Forall (fun e => (screenH <? e_y e)%float = false /\ e_sh e ∉ dead)
    (enemies (moveEnemies dead g)).
Proof.
  unfold moveEnemies.
  pose proof (enemyLoop_kept dead (enemies g) (g, []) ltac:(constructor))
    as H.
  destruct (fold_left (enemyStep dead) (enemies g) (g, [])) as [g1 k1].
  exact H.
Qed.

(** X12.  In every state a game reaches each live bullet still reaches
    below the top edge ([y + 26 > 0]) and no live enemy is below the
    bottom edge ([y > 640] fails): what leaves the play field is gone
    by the end of the tick. *)
Theorem entities_in_bounds (g : Game) :
  Reachable g ->
  (forall b, In b (bullets g) -> (0 <? b_y b + 26)%float = true)
  /\ (forall e, In e (enemies g) -> (640 <? e_y e)%float = false).
Proof.
  intros H. rewrite <- !List.Forall_forall.
  induction H as [source img | g inp g' Hg IH Hu].
  - unfold newGame. cbv zeta.
    destruct (AddRectangle _ _ _ _ _ _) as [psh sp].
    destruct (newStars _ _) as [sts r]. split; constructor.
  - destruct (win g || over g) eqn:Hp.
    { rewrite Update_frozen in Hu by assumption. now injection Hu as <-. }
    destruct (Update_playing g g' inp Hp Hu) as (gs & Hs & Ha).
    apply advanceRound_entities in Ha as (-> & -> & _).
    rewrite moveEnemies_bullets. split; [apply moveBullets_kept |].
    eapply List.Forall_impl; [| apply moveEnemies_kept].
    cbv beta. intros e (E & _). exact E.
Qed.

End Bounds.

(** ** Bullets hit live enemies only, and those are gone after the tick *)

Lemma IntersectionTest_Some `{R : Resolv} (sp : Space) (i j : positive)
    (t : Tag) :
  IntersectionTest sp i t = Some j ->
  exists o, In o (shapes sp) /\ sid o = j /\ stag o = t /\ j <> i.
Proof.
  unfold IntersectionTest. destruct (lookup_shape sp i) as [me |];
    [| discriminate].
  destruct (List.find _ (shapes sp)) as [o |] eqn:F; [| discriminate].
  intros [= <-]. apply List.find_some in F as (Hin & F).
  apply andb_prop in F as (F & _). apply andb_prop in F as (Ft & Fi).
  exists o. repeat split; [exact Hin | |].
  - now destruct (stag o), t.
  - apply negb_true_iff in Fi. now apply Pos.eqb_neq in Fi.
Qed.

Section Hits.
Context `{R : Resolv}.

Lemma scene_enemy_tag (pl : Shape) (bs : list bullet) (es : list enemy)
    (o : Shape) :
  stag pl <> tagEnemy -> In o (sceneShapes pl bs es) -> stag o = tagEnemy ->
  In (sid o) (map e_sh es).
Proof.
  intros Hpl Hin Ht. unfold sceneShapes in Hin.
  destruct Hin as [<- | Hin]; [contradiction |].
  apply in_app_or in Hin as [Hin | Hin];
    apply in_map_iff in Hin as (x & <- & Hx); [cbn in Ht; discriminate |].
  now apply (in_map e_sh) in Hx.
Qed.

Lemma bulletStep_dead (g : Game) (dead : gset positive)
    (kept : list bullet) (b : bullet) (rest : list bullet) :
  scene_ok (space g)
    (sceneShapes (playerShape g) (kept ++ b :: rest) (enemies g)) ->
  (forall i, i ∈ dead -> In i (map e_sh (enemies g))) ->
  forall i, i ∈ snd (fst (bulletStep (g, dead, kept) b)) ->
            In i (map e_sh (enemies g)).
Proof.
  intros H Hd. rewrite sceneShapes_bullet in H.
  apply (scene_move _ _ _ _ (b_x b) (b_y b + b_vy b)%float) in H.
  destruct H as (H & _).
  unfold bulletStep. cbv zeta.
  destruct (IntersectionTest _ _ _) as [j |] eqn:T.
  - cbn [fst snd]. intros i Hi.
    apply elem_of_union in Hi as [Hi | Hi]; [| now apply Hd].
    apply elem_of_singleton in Hi as ->.
    apply IntersectionTest_Some in T as (o & Ho & <- & Ht & _).
    cbn [space set_space] in Ho. apply (Permutation_in _ H) in Ho.
    rewrite <- sceneShapes_bullet
      with (b := {| b_x := b_x b; b_y := (b_y b + b_vy b)%float;
                    b_vy := b_vy b; b_sh := b_sh b |}) in Ho.
    eapply (scene_enemy_tag (playerShape g));
      [cbn; discriminate | exact Ho | exact Ht].
  - destruct (0 <? _)%float; exact Hd.
Qed.

Lemma bulletLoop_dead (rest : list bullet) :
  forall g dead kept,
    scene_ok (space g)
      (sceneShapes (playerShape g) (kept ++ rest) (enemies g)) ->
    (forall i, i ∈ dead -> In i (map e_sh (enemies g))) ->
    forall i, i ∈ snd (fst (fold_left bulletStep rest (g, dead, kept))) ->
              In i (map e_sh (enemies g)).
Proof.
  induction rest as [| b rest IH]; intros g dead kept H Hd;
    cbn [fold_left]; [exact Hd |].
  pose proof (bulletStep_scene g dead kept b rest H) as H1.
  pose proof (bulletStep_dead g dead kept b rest H Hd) as H2.
  destruct (bulletStep_views (g, dead, kept) b) as (_ & _ & E).
  cbv zeta in H1.
  destruct (bulletStep (g, dead, kept) b) as [[g1 d1] k1].
  cbn [fst snd] in *. rewrite <- E.
  apply IH; [exact H1 | rewrite E; exact H2].
Qed.

Lemma moveBullets_dead (g : Game) :
  space_ok g ->
  forall i, i ∈ snd (moveBullets g) -> In i (map e_sh (enemies g)).
Proof.
  intros H. unfold moveBullets.
  pose proof (bulletLoop_dead (bullets g) g ∅ [] H
                ltac:(intros i Hi; now apply elem_of_empty in Hi)) as H1.
  destruct (fold_left bulletStep (bullets g) (g, ∅, [])) as [[g1 d1] k1].
  exact H1.
Qed.

Lemma moveBullets_handles (g : Game) :
  Forall (fun b => In (b_sh b) (map b_sh (bullets g)))
    (bullets (fst (moveBullets g))).
Proof.
  unfold moveBullets.
  pose proof (bulletLoop_vy (fun b => In (b_sh b) (map b_sh (bullets g)))
                ltac:(auto) (bullets g) (g, ∅, [])) as H.
  destruct (fold_left bulletStep (bullets g) (g, ∅, [])) as [[g1 d1] k1].
  apply H; [| constructor].
  apply List.Forall_forall. intros b Hb. now apply in_map.
Qed.

Lemma marked_shapes_gone (g g' : Game) (inp : Input) :
  Reachable g ->
  win g || over g = false ->
  Update g inp = Some g' ->
  exists gs,
    spawnEnemies (prelude inp g) = Some gs
    /\ forall i, i ∈ snd (moveBullets gs) ->
         In i (map e_sh (enemies gs))
         /\ ~ In i (handles g')
         /\ lookup_shape (space g') i = None.
Proof.
  intros Hg Hp Hu.
  pose proof (Reachable_space_ok g' (reach_tick g inp g' Hg Hu)) as Hok'.
  destruct (Update_playing g g' inp Hp Hu) as (gs & Hs & Ha).
  exists gs. split; [exact Hs |]. intros i Hi.
  assert (Hgs : space_ok gs).
  { apply (spawnEnemies_space_ok _ _) in Hs; [exact Hs |].
    unfold prelude. apply shoot_space_ok.
    apply (space_ok_scene (movePlayer inp (scrollBackground g)));
      [unfold tickInv; now destruct (0 <? inv _) |].
    apply movePlayer_space_ok.
    apply (space_ok_scene g); [| exact (Reachable_space_ok g Hg)].
    unfold scrollBackground. destruct (bgImg g); [reflexivity |].
    now destruct (fold_left stepStar (stars g) ([], rng g)). }
  pose proof (moveBullets_dead gs Hgs i Hi) as Hlive.
  split; [exact Hlive |].
  assert (Hn : ~ In i (handles g')).
  { destruct Hgs as (_ & Hnd & _). rewrite handles_sids in Hnd.
    unfold handles in Hnd. apply List.NoDup_cons_iff in Hnd as (Hpl & Hnd).
    pose proof (advanceRound_lateView _ _ Ha) as L.
    rewrite moveEnemies_lateView, moveBullets_lateView in L.
    apply lateView_eq in L as (_ & _ & L & _).
    apply advanceRound_entities in Ha as (Hb & He & _).
    unfold handles. rewrite L, Hb, He, moveEnemies_bullets.
    intros [E | Hin].
    - apply Hpl, in_or_app. right. now rewrite E.
    - apply in_app_or in Hin as [Hin | Hin].
      + apply in_map_iff in Hin as (b & <- & Hin).
        pose proof (moveBullets_handles gs) as Hk.
        rewrite List.Forall_forall in Hk. specialize (Hk b Hin).
        revert Hk Hlive. generalize (b_sh b). clear -Hnd.
        generalize dependent (map e_sh (enemies gs)).
        generalize (map b_sh (bullets gs)).
        intros l1 l2 Hnd j H1 H2.
        induction l1 as [| a l1 IH]; [destruct H1 |].
        cbn in Hnd. apply List.NoDup_cons_iff in Hnd as (Ha & Hnd).
        destruct H1 as [-> | H1]; [| now apply IH].
        apply Ha, in_or_app. now right.
      + pose proof (moveEnemies_kept (snd (moveBullets gs))
                      (fst (moveBullets gs))) as Hk.
        rewrite List.Forall_forall in Hk.
        apply in_map_iff in Hin as (e & <- & Hin).
        exact (proj2 (Hk e Hin) Hi). }
  split; [exact Hn |].
  destruct Hok' as (P & _). unfold lookup_shape.
  destruct (List.find _ (shapes (space g'))) as [o |] eqn:F;
    [| reflexivity].
  apply List.find_some in F as (Ho & F). apply Pos.eqb_eq in F.
  exfalso. apply Hn. rewrite <- handles_sids, <- F.
  apply in_map. exact (Permutation_in _ P Ho).
Qed.

(** X13.  In a tick of a game in play, every shape a bullet is found
    to hit is the shape of an enemy that was alive when the bullet loop
    started; at the end of the tick no entity has that shape, and the
    shape is no longer in the space. *)
Theorem hits_remove_live_enemies (g g' : Game) (inp : Input) :
  Reachable g ->
  win g || over g = false ->
  Update g inp = Some g' ->
  exists gs,
    spawnEnemies (prelude inp g) = Some gs
    /\ forall i, i ∈ snd (moveBullets gs) ->
         In i (map e_sh (enemies gs))
         /\ ~ In i (handles g')
         /\ lookup_shape (space g') i = None.
Proof.
  intros Hg Hp Hu. exact (marked_shapes_gone g g' inp Hg Hp Hu).
Qed.

(** *** The enemy a bullet marked *)





End Hits.

(** ** A game never panics *)

(** X14.  From every state a game reaches, any sequence of ticks runs
    to its end, whatever the keys: [Update] never reads [rounds] out of
    range, and the state it ends in is again a state of the game. *)
Theorem play_never_panics `{R : Resolv} (g : Game) (inps : list Input) :
  Reachable g -> exists g', run g inps = Some g' /\ Reachable g'.
Proof.
  revert g. induction inps as [| i inps IH]; intros g Hg; simpl.
  - exists g. auto.
  - destruct (Update_total g i (Reachable_quota_ok g Hg)) as (g1 & Hu).
    rewrite Hu. apply IH. exact (reach_tick g i g1 Hg Hu).
Qed.

(** ** The properties on scripted games *)

Section Played.
Local Existing Instance rect_resolv.

Lemma firstRound_Reachable : Reachable (run_or centreGame firstRound).
Proof.
  exact (run_or_Reachable firstRound centreGame
           (reach_new (fun _ => 0.5%float) (Some 100))).
Qed.

Lemma firstRound_Update :
  Update (run_or centreGame firstRound) pressFire
  = Some (run_or (run_or centreGame firstRound) [pressFire]).
Proof. vm_compute. reflexivity. Qed.

Lemma starGame_Reachable : Reachable (run_or starGame [noKeys; noKeys]).
Proof.
  exact (run_or_Reachable [noKeys; noKeys] starGame
           (reach_new (fun _ => 0.5%float) None)).
Qed.

(** The state [lastStand] ends in: won and lost at once. *)
Lemma flags_sound_witness :
  0 <= roundIdx (run_or centreGame lastStand) <= 6
  /\ (win (run_or centreGame lastStand) = true
      <-> roundIdx (run_or centreGame lastStand) = 6)
  /\ (over (run_or centreGame lastStand) = true
      <-> lives (run_or centreGame lastStand) = -1)
  /\ (win (run_or centreGame lastStand) = false ->
      exists q, rounds_at (roundIdx (run_or centreGame lastStand)) = Some q
                /\ 6 <= q <= 42)
  /\ (over (run_or centreGame lastStand) = false ->
      0 <= lives (run_or centreGame lastStand) <= 2).
Proof.
  exact (flags_sound (run_or centreGame lastStand) lastStand_Reachable).
Defined.

(** The state before the sixth enemy of round 0 is shot. *)
Lemma timers_in_range_witness :
  0 <= cooldown (run_or centreGame firstRound) <= 10
  /\ 0 <= inv (run_or centreGame firstRound) <= 60
  /\ 1 <= spawnTimer (run_or centreGame firstRound) <= 32.
Proof.
  exact (timers_in_range (run_or centreGame firstRound)
           firstRound_Reachable).
Defined.

Lemma DrawOverlay_total_witness :
  exists o, DrawOverlay (run_or centreGame firstRound) = Some o
    /\ match o with
       | youWin => win (run_or centreGame firstRound) = true
       | gameOver => win (run_or centreGame firstRound) = false
                     /\ over (run_or centreGame firstRound) = true
       | hud r k q l d s =>
           win (run_or centreGame firstRound) = false
           /\ over (run_or centreGame firstRound) = false
           /\ r = roundIdx (run_or centreGame firstRound) + 1
           /\ 1 <= r <= 6
           /\ rounds_at (roundIdx (run_or centreGame firstRound)) = Some q
           /\ k = roundKills (run_or centreGame firstRound)
           /\ l = lives (run_or centreGame firstRound) /\ 0 <= l <= 2
           /\ d = fireDelay (roundIdx (run_or centreGame firstRound))
           /\ 8 <= d <= 10
       end.
Proof.
  exact (DrawOverlay_total (run_or centreGame firstRound)
           firstRound_Reachable).
Defined.

(** The player after the climb of [climbAndShoot]. *)
Lemma player_on_screen_witness :
  ((0 <=? px (run_or centreGame climbAndShoot))
   && (px (run_or centreGame climbAndShoot) <=? 445) = true)%float
  /\ ((0 <=? py (run_or centreGame climbAndShoot))
      && (py (run_or centreGame climbAndShoot) <=? 605) = true)%float
  /\ In (px (run_or centreGame climbAndShoot)) columns
  /\ In (py (run_or centreGame climbAndShoot)) rows.
Proof.
  exact (player_on_screen (run_or centreGame climbAndShoot)
           climb_Reachable).
Defined.

Lemma handles_are_shapes_witness :
  List.NoDup (handles (run_or centreGame firstRound))
  /\ Permutation (map sid (shapes (space (run_or centreGame firstRound))))
       (handles (run_or centreGame firstRound))
  /\ length (shapes (space (run_or centreGame firstRound)))
     = S (length (bullets (run_or centreGame firstRound))
          + length (enemies (run_or centreGame firstRound)))
  /\ Forall (fun i => (i < nextId (space (run_or centreGame firstRound)))
                      %positive)
       (handles (run_or centreGame firstRound)).
Proof.
  exact (handles_are_shapes (run_or centreGame firstRound)
           firstRound_Reachable).
Defined.

Lemma shapes_follow_entities_witness :
  lookup_shape (space (run_or centreGame firstRound))
    (playerSh (run_or centreGame firstRound))
  = Some {| sid := playerSh (run_or centreGame firstRound);
            stag := tagNone;
            sx := px (run_or centreGame firstRound);
            sy := py (run_or centreGame firstRound);
            sw := 35; sh := 35 |}
  /\ (forall b, In b (bullets (run_or centreGame firstRound)) ->
      lookup_shape (space (run_or centreGame firstRound)) (b_sh b)
      = Some {| sid := b_sh b; stag := tagBullet; sx := b_x b; sy := b_y b;
                sw := 26; sh := 26 |})
  /\ (forall e, In e (enemies (run_or centreGame firstRound)) ->
      lookup_shape (space (run_or centreGame firstRound)) (e_sh e)
      = Some {| sid := e_sh e; stag := tagEnemy; sx := e_x e; sy := e_y e;
                sw := 38; sh := 38 |}).
Proof.
  exact (shapes_follow_entities (run_or centreGame firstRound)
           firstRound_Reachable).
Defined.

(** The tick on which the sixth enemy of round 0 is shot. *)
Lemma shot_rate_limit_witness :
  (shotsFired (run_or (run_or centreGame firstRound) [pressFire])
   = shotsFired (run_or centreGame firstRound)
   \/ (shotsFired (run_or (run_or centreGame firstRound) [pressFire])
       = S (shotsFired (run_or centreGame firstRound))
       /\ keyFire pressFire = true
       /\ 0 <= cooldown (run_or centreGame firstRound) <= 1
       /\ cooldown (run_or (run_or centreGame firstRound) [pressFire])
          = fireDelay (roundIdx (run_or centreGame firstRound))
       /\ 8 <= cooldown (run_or (run_or centreGame firstRound) [pressFire])
          <= 10))
  /\ (shotsFired (run_or (run_or centreGame firstRound) [pressFire])
      = S (shotsFired (run_or centreGame firstRound)) ->
      forall inps g2,
        (length inps <= 7)%nat ->
        run (run_or (run_or centreGame firstRound) [pressFire]) inps
        = Some g2 ->
        shotsFired g2
        = shotsFired (run_or (run_or centreGame firstRound) [pressFire])).
Proof.
  exact (shot_rate_limit (run_or centreGame firstRound)
           (run_or (run_or centreGame firstRound) [pressFire]) pressFire
           firstRound_Reachable firstRound_Update).
Defined.

Lemma tick_growth_witness :
  (length (bullets (run_or (run_or centreGame firstRound) [pressFire]))
   <= length (bullets (run_or centreGame firstRound))
      + (if fires pressFire (run_or centreGame firstRound) then 1 else 0))%nat
  /\ (length (enemies (run_or (run_or centreGame firstRound) [pressFire]))
      <= length (enemies (run_or centreGame firstRound)) + 1)%nat.
Proof.
  exact (tick_growth (run_or centreGame firstRound)
           (run_or (run_or centreGame firstRound) [pressFire]) pressFire
           firstRound_Update).
Defined.

(** Two ticks of a game without a background image. *)
Lemma star_field_witness :
  length (stars (run_or starGame [noKeys; noKeys])) = 60%nat
  /\ forall inp g',
       Update (run_or starGame [noKeys; noKeys]) inp = Some g' ->
       map s_v (stars g') = map s_v (stars (run_or starGame [noKeys; noKeys]))
       /\ bgImg g' = bgImg (run_or starGame [noKeys; noKeys])
       /\ (bgImg (run_or starGame [noKeys; noKeys]) = None ->
           win (run_or starGame [noKeys; noKeys])
           || over (run_or starGame [noKeys; noKeys]) = false ->
           Forall (fun s => (screenH <? s_y s)%float = false) (stars g'))
       /\ (bgImg (run_or starGame [noKeys; noKeys]) <> None ->
           stars g' = stars (run_or starGame [noKeys; noKeys])).
Proof.
  exact (star_field (run_or starGame [noKeys; noKeys]) starGame_Reachable).
Defined.

Lemma entity_speeds_witness :
  (forall b, In b (bullets (run_or centreGame firstRound)) ->
             b_vy b = (-6)%float)
  /\ (forall e, In e (enemies (run_or centreGame firstRound)) ->
      (exists r, 0 <= r < 6 /\ e_vy e = enemySpeed r)
      /\ (1 <? e_vy e)%float = true /\ (e_vy e <? 3)%float = true).
Proof.
  exact (entity_speeds (run_or centreGame firstRound) firstRound_Reachable).
Defined.

Lemma entities_in_bounds_witness :
  (forall b, In b (bullets (run_or centreGame firstRound)) ->
             (0 <? b_y b + 26)%float = true)
  /\ (forall e, In e (enemies (run_or centreGame firstRound)) ->
                (640 <? e_y e)%float = false).
Proof.
  exact (entities_in_bounds (run_or centreGame firstRound)
           firstRound_Reachable).
Defined.

Lemma hits_remove_live_enemies_witness :
  exists gs,
    spawnEnemies (prelude pressFire (run_or centreGame firstRound)) = Some gs
    /\ forall i, i ∈ snd (moveBullets gs) ->
         In i (map e_sh (enemies gs))
         /\ ~ In i (handles (run_or (run_or centreGame firstRound)
                               [pressFire]))
         /\ lookup_shape
              (space (run_or (run_or centreGame firstRound) [pressFire])) i
            = None.
Proof.
  exact (hits_remove_live_enemies (run_or centreGame firstRound)
           (run_or (run_or centreGame firstRound) [pressFire]) pressFire
           firstRound_Reachable firstRound_playing firstRound_Update).
Defined.






Lemma play_never_panics_witness :
  exists g', run (run_or centreGame firstRound) [pressFire; noKeys; pressUp]
             = Some g'
             /\ Reachable g'.
Proof.
  exact (play_never_panics (run_or centreGame firstRound)
           [pressFire; noKeys; pressUp] firstRound_Reachable).
Defined.

End Played.
